(** * GetTable: table captions in recognised text

    A shallow embedding of the text-processing core of [GetTable.cpp]
    (and of the order validator of its two earlier variants):

    - [extractTableInfo]: line-by-line [regex_search] for the caption
      pattern, one [TableInfo] per matching line;
    - [findMisorderedTables]: the scan with the [prevNumber] cursor;
    - [trim]: the two [erase] calls driven by [find_if];
    - the [replace] of '|' by '1' that [main] performs before extraction;
    - [main]: its two early returns and what it writes for the tables and
      the anomalies;
    - the [extractTableInfo] of the variants, a [sregex_iterator] over the
      whole text.

    A [std::string] is a list of bytes ([ascii]); the Cyrillic marker word is
    its UTF-8 byte sequence, exactly as it sits in the source file.  The
    regular expression is kept as a syntax tree and run by a backtracking
    matcher with the ECMAScript priorities that [std::regex] follows; a
    second version of the matcher counts the stack that the search uses. *)

From Stdlib Require Import String Ascii List Bool Arith NArith ZArith Lia Sorted.
Import ListNotations.

(* ------------------------------------------------------------------ *)
(** ** Strings *)

Definition str := list ascii.

(** The bytes of a literal. *)
Definition bytes (s : string) : str := list_ascii_of_string s.

(** [std::string::compare]: bytes compare as [unsigned char], a proper
    prefix is smaller. *)
Fixpoint compare (a b : str) : comparison :=
  match a, b with
  | [], [] => Eq
  | [], _ :: _ => Lt
  | _ :: _, [] => Gt
  | x :: a', y :: b' =>
      match Ascii.compare x y with
      | Eq => compare a' b'
      | c => c
      end
  end.

(** [operator<=] on [std::string]. *)
Definition string_le (a b : str) : bool :=
  match compare a b with
  | Gt => false
  | _ => true
  end.

(** [vector::push_back]. *)
Definition push_back {A : Type} (v : list A) (x : A) : list A := v ++ [x].

(** [isspace] in the "C" locale: space, and the five controls 9..13. *)
Definition isspace (ch : ascii) : bool :=
  match nat_of_ascii ch with
  | 9 | 10 | 11 | 12 | 13 | 32 => true
  | _ => false
  end.

(** [isdigit]: '0'..'9'. *)
Definition isdigit (ch : ascii) : bool :=
  let n := nat_of_ascii ch in (48 <=? n) && (n <=? 57).

(** [std::find_if] over a range, as the index of the first element that
    satisfies [p]; the length of the range when there is none. *)
Fixpoint find_if (p : ascii -> bool) (s : str) : nat :=
  match s with
  | [] => 0
  | ch :: s' => if p ch then 0 else S (find_if p s')
  end.

(** [s.erase(first, last)] with iterators given as indices. *)
Definition erase (s : str) (first last : nat) : str :=
  firstn first s ++ skipn last s.

(** [std::replace(first, last, old, new)] over the whole string. *)
Definition replace (s : str) (old new : ascii) : str :=
  map (fun ch => if Ascii.eqb ch old then new else ch) s.

(* ------------------------------------------------------------------ *)
(** ** The regular expressions of the program

    Only the constructs that occur in [tablePattern] are present: ordinary
    characters, a character class under [+], [*] or [*?], capturing
    parentheses, sequencing and an optional non-capturing group. *)

Inductive regex : Type :=
| Chars (w : str)
| Repeat (cls : ascii -> bool) (min : nat) (greedy : bool)
| Group (n : nat) (r : regex)
| Seq (r1 r2 : regex)
| Optional (r : regex).

(** [match_results]: the text of each marked sub-expression, when it took
    part in the match. *)
Definition smatch := nat -> option str.

Definition no_match : smatch := fun _ => None.

Definition set_group (n : nat) (s : str) (m : smatch) : smatch :=
  fun i => if Nat.eqb i n then Some s else m i.

(** [match.str(n)]: empty for a group that did not take part. *)
Definition match_str (m : smatch) (n : nat) : str :=
  match m n with
  | Some s => s
  | None => []
  end.

(** Ordinary characters: the rest of the input after the word, if the input
    starts with it. *)
Fixpoint matchChars (w s : str) : option str :=
  match w with
  | [] => Some s
  | x :: w' =>
      match s with
      | [] => None
      | y :: s' => if Ascii.eqb x y then matchChars w' s' else None
      end
  end.

(** A quantified character class, with continuation [k].  While [min]
    repetitions are owed the class must match.  After that the greedy loop
    tries one more repetition before it tries [k]; the lazy loop tries [k]
    first. *)
Fixpoint repeatMatcher (cls : ascii -> bool) (greedy : bool)
    (k : str -> option smatch) (min : nat) (s : str) : option smatch :=
  match min with
  | S min' =>
      match s with
      | ch :: s' => if cls ch then repeatMatcher cls greedy k min' s' else None
      | [] => None
      end
  | O =>
      if greedy then
        match s with
        | ch :: s' =>
            if cls ch then
              match repeatMatcher cls greedy k 0 s' with
              | Some m => Some m
              | None => k s
              end
            else k s
        | [] => k s
        end
      else
        match k s with
        | Some m => Some m
        | None =>
            match s with
            | ch :: s' => if cls ch then repeatMatcher cls greedy k 0 s' else None
            | [] => None
            end
        end
  end.

(** The backtracking matcher: [matcher r s caps k] matches [r] at the start
    of [s] and hands the rest of the input and the captures to [k]; the first
    alternative on which [k] succeeds is the answer. *)
Fixpoint matcher (r : regex) (s : str) (caps : smatch)
    (k : str -> smatch -> option smatch) : option smatch :=
  match r with
  | Chars w =>
      match matchChars w s with
      | Some s' => k s' caps
      | None => None
      end
  | Repeat cls min greedy =>
      repeatMatcher cls greedy (fun s' => k s' caps) min s
  | Group n r' =>
      matcher r' s caps
        (fun s' caps' =>
           k s' (set_group n (firstn (length s - length s') s) caps'))
  | Seq r1 r2 =>
      matcher r1 s caps (fun s' caps' => matcher r2 s' caps' k)
  | Optional r' =>
      match matcher r' s caps
              (fun s' caps' =>
                 if Nat.eqb (length s') (length s) then None else k s' caps')
      with
      | Some m => Some m
      | None => k s caps
      end
  end.

(** [regex_search]: the match at the leftmost position that has one; group 0
    is the whole match. *)
Fixpoint regex_search (s : str) (r : regex) : option smatch :=
  match matcher (Group 0 r) s no_match (fun _ caps => Some caps) with
  | Some m => Some m
  | None =>
      match s with
      | [] => None
      | _ :: s' => regex_search s' r
      end
  end.

(** One attempt at the start of [s]; with [not_null] set, an empty match is
    refused ([match_not_null]). *)
Definition match_here (r : regex) (not_null : bool) (s : str) : option smatch :=
  matcher (Group 0 r) s no_match
    (fun s' caps =>
       if not_null && Nat.eqb (length s') (length s) then None else Some caps).

(** The matches that a [sregex_iterator] goes through, from the start of [s]
    once [skip] characters are passed.  After a match the next search starts
    where the match ended.  After an empty match, a match that is not empty is
    tried at the same place first, and the search moves on by one character
    when there is none; an empty match at the end of the text is the last
    one. *)
Fixpoint regex_iterate (r : regex) (s : str) (skip : nat) : list smatch :=
  match skip with
  | S skip' =>
      match s with
      | [] => []
      | _ :: s' => regex_iterate r s' skip'
      end
  | O =>
      match match_here r false s with
      | Some m =>
          m ::
          match s with
          | [] => []
          | _ :: s' =>
              match length (match_str m 0) with
              | S l => regex_iterate r s' l
              | O =>
                  match match_here r true s with
                  | Some m' =>
                      m' :: regex_iterate r s' (length (match_str m' 0) - 1)
                  | None => regex_iterate r s' 0
                  end
              end
          end
      | None =>
          match s with
          | [] => []
          | _ :: s' => regex_iterate r s' 0
          end
      end
  end.

(** The matcher again, with the stack that it uses.  The matcher of
    [std::regex] is recursive: it goes one activation deeper for each node of
    the pattern that it enters and for each repetition of a quantified class,
    and it comes back only when the rest of the pattern has been tried.  The
    stack has room for [stack] activations; a search that needs more ends the
    program.  How many there are depends on the platform, so [stack] is a
    parameter. *)
Inductive attempt : Type :=
| Found (m : smatch)
| NotFound
| Exhausted.

Fixpoint repeatMatcher_within (cls : ascii -> bool) (greedy : bool)
    (k : nat -> str -> attempt) (min : nat) (s : str) (stack : nat)
    {struct stack} : attempt :=
  match stack with
  | O => Exhausted
  | S stack' =>
      match min with
      | S min' =>
          match s with
          | ch :: s' =>
              if cls ch then repeatMatcher_within cls greedy k min' s' stack'
              else NotFound
          | [] => NotFound
          end
      | O =>
          if greedy then
            match s with
            | ch :: s' =>
                if cls ch then
                  match repeatMatcher_within cls greedy k 0 s' stack' with
                  | Found m => Found m
                  | Exhausted => Exhausted
                  | NotFound => k stack' s
                  end
                else k stack' s
            | [] => k stack' s
            end
          else
            match k stack' s with
            | Found m => Found m
            | Exhausted => Exhausted
            | NotFound =>
                match s with
                | ch :: s' =>
                    if cls ch then repeatMatcher_within cls greedy k 0 s' stack'
                    else NotFound
                | [] => NotFound
                end
            end
      end
  end.

Fixpoint matcher_within (r : regex) (s : str) (caps : smatch) (stack : nat)
    (k : nat -> str -> smatch -> attempt) {struct r} : attempt :=
  match stack with
  | O => Exhausted
  | S stack' =>
      match r with
      | Chars w =>
          match matchChars w s with
          | Some s' => k stack' s' caps
          | None => NotFound
          end
      | Repeat cls min greedy =>
          repeatMatcher_within cls greedy (fun st s' => k st s' caps) min s stack'
      | Group n r' =>
          matcher_within r' s caps stack'
            (fun st s' caps' =>
               k st s' (set_group n (firstn (length s - length s') s) caps'))
      | Seq r1 r2 =>
          matcher_within r1 s caps stack'
            (fun st s' caps' => matcher_within r2 s' caps' st k)
      | Optional r' =>
          match matcher_within r' s caps stack'
                  (fun st s' caps' =>
                     if Nat.eqb (length s') (length s) then NotFound
                     else k st s' caps')
          with
          | Found m => Found m
          | Exhausted => Exhausted
          | NotFound => k stack' s caps
          end
      end
  end.

(** [regex_search] with that stack: every start position is tried with the
    whole of it. *)
Fixpoint regex_search_within (stack : nat) (s : str) (r : regex) : attempt :=
  match matcher_within (Group 0 r) s no_match stack (fun _ _ caps => Found caps) with
  | Found m => Found m
  | Exhausted => Exhausted
  | NotFound =>
      match s with
      | [] => NotFound
      | _ :: s' => regex_search_within stack s' r
      end
  end.

(** The classes of the pattern: [\s], [[\d.]] and [.] (any character but a
    line terminator). *)
Definition cls_space : ascii -> bool := isspace.

Definition cls_digit_dot (ch : ascii) : bool :=
  isdigit ch || Ascii.eqb ch "."%char.

Definition cls_any (ch : ascii) : bool :=
  negb (Ascii.eqb ch "010"%char || Ascii.eqb ch "013"%char).

Definition marker : str := bytes "Таблица".

(** The pattern of [extractTableInfo]: the marker word; [\s+]; group 1,
    [[\d.]+]; then an optional non-capturing group made of [\s+], a lazy
    run of any characters, [\s+] and group 2, a greedy run of any
    characters. *)
Definition tablePattern : regex :=
  Seq (Chars marker)
  (Seq (Repeat cls_space 1 true)
  (Seq (Group 1 (Repeat cls_digit_dot 1 true))
       (Optional
          (Seq (Repeat cls_space 1 true)
          (Seq (Repeat cls_any 0 false)
          (Seq (Repeat cls_space 1 true)
               (Group 2 (Repeat cls_any 0 true)))))))).

(* ------------------------------------------------------------------ *)
(** ** The program *)

Record TableInfo : Type := mkTableInfo { number : str; title : str }.

(** The lines that successive [getline(ss, line)] calls deliver: the text
    is cut at each newline, the newline is dropped, and the read after the
    last newline fails when nothing is left.  [line] holds the characters
    read so far. *)
Fixpoint getlines (line : str) (ss : str) : list str :=
  match ss with
  | [] =>
      match line with
      | [] => []
      | _ :: _ => [line]
      end
  | ch :: ss' =>
      if Ascii.eqb ch "010"%char then line :: getlines [] ss'
      else getlines (push_back line ch) ss'
  end.

Module GetTable.

(** The body of the [while] loop of [extractTableInfo]. *)
Definition scan_line (tables : list TableInfo) (line : str) : list TableInfo :=
  match regex_search line tablePattern with
  | Some m => push_back tables (mkTableInfo (match_str m 1) (match_str m 2))
  | None => tables
  end.

Definition extractTableInfo (text : str) : list TableInfo :=
  fold_left scan_line (getlines [] text) [].

(** The two variables of [findMisorderedTables]. *)
Record validator : Type :=
  mkValidator { misordered : list str; prevNumber : str }.

(** The body of its [for] loop. *)
Definition check_table (st : validator) (table : TableInfo) : validator :=
  let flagged :=
    if string_le (number table) (prevNumber st)
    then push_back (push_back (misordered st) (number table)) (prevNumber st)
    else misordered st in
  mkValidator flagged (number table).

Definition findMisorderedTables (tables : list TableInfo) : list str :=
  misordered (fold_left check_table tables (mkValidator [] (bytes "0"))).

Definition not_space (ch : ascii) : bool := negb (isspace ch).

Definition trim (str0 : str) : str :=
  let s := str0 in
  let s := erase s 0 (find_if not_space s) in
  let s := erase s (length s - find_if not_space (rev s)) (length s) in
  s.

(** What [main] computes from the recognised text: the pipes are replaced
    first, then the tables are extracted and validated. *)
Definition recognise (outText : str) : list TableInfo * list str :=
  let text := replace outText "|"%char "1"%char in
  let tables := extractTableInfo text in
  let misorderedTables := findMisorderedTables tables in
  (tables, misorderedTables).

(** A run of the program: what it writes to [cout] and to [cerr], and the
    value that [main] returns. *)
Record run : Type := mkRun { cout : str; cerr : str; exit_code : Z }.

Definition endl : str := ["010"%char].

(** The body of the loop of [main] over the tables: three lines are written
    for each one. *)
Definition print_table (out : str) (table : TableInfo) : str :=
  let out := out ++ bytes "Номер таблицы: " ++ number table ++ endl in
  let trimmedTitle := trim (title table) in
  let out :=
    match trimmedTitle with
    | [] => out ++ bytes "Название таблицы отсутствует" ++ endl
    | _ :: _ => out ++ bytes "Название таблицы: " ++ trimmedTitle ++ endl
    end in
  out ++ bytes "----" ++ endl.

(** The [if] of [main] on the anomalies. *)
Definition print_misordered (out : str) (misorderedTables : list str) : str :=
  match misorderedTables with
  | [] => out
  | _ :: _ =>
      let out := out ++ endl ++ bytes "Неправильно пронумерованы таблицы: " in
      let out :=
        fold_left (fun o number => o ++ number ++ bytes " ")
          misorderedTables out in
      out ++ endl
  end.

(** [main].  The image and the recognition engine are outside the program:
    [img_empty] is what [img.empty()] returns, [init_failed] tells whether
    [ocr->Init] returned a non-zero value, [outText] is the recognised
    text.  [ocr->End()] and the wait for a key at the end write nothing. *)
Definition main (img_empty init_failed : bool) (outText : str) : run :=
  if img_empty then
    mkRun [] (bytes "Ошибка: изображение не загружено." ++ endl) (-1)
  else if init_failed then
    mkRun [] (bytes "Не удалось инициализировать tesseract." ++ endl) 1
  else
    let (tables, misorderedTables) := recognise outText in
    let out := fold_left print_table tables [] in
    let out := print_misordered out misorderedTables in
    let out := out ++ bytes "Нажмите Enter, чтобы выйти..." in
    mkRun out [] 0.

End GetTable.

(** The first variant: its extractor, which runs a [sregex_iterator] over the
    whole text, and its order validator.  Its [main] sets the global locale to
    en_US.UTF-8 before the pattern is built; the character classes are taken
    to be those of the "C" locale on single bytes. *)
Module Variant0.

(** The pattern of [extractTableInfo]: as in [GetTable.cpp], but the part
    after group 1 is not optional and group 2 is a run of at least one
    character. *)
Definition tablePattern : regex :=
  Seq (Chars marker)
  (Seq (Repeat cls_space 1 true)
  (Seq (Group 1 (Repeat cls_digit_dot 1 true))
  (Seq (Repeat cls_space 1 true)
  (Seq (Repeat cls_any 0 false)
  (Seq (Repeat cls_space 1 true)
       (Group 2 (Repeat cls_any 1 true))))))).

(** The body of the [for] loop of [extractTableInfo]. *)
Definition add_match (tables : list TableInfo) (m : smatch) : list TableInfo :=
  push_back tables (mkTableInfo (match_str m 1) (match_str m 2)).

Definition extractTableInfo (text : str) : list TableInfo :=
  fold_left add_match (regex_iterate tablePattern text 0) [].

Record validator : Type :=
  mkValidator { misordered : list str; prevNumber : str }.

Definition check_table (st : validator) (table : TableInfo) : validator :=
  let flagged :=
    if string_le (number table) (prevNumber st)
    then push_back (misordered st) (prevNumber st)
    else misordered st in
  mkValidator flagged (number table).

Definition findMisorderedTables (tables : list TableInfo) : list str :=
  misordered (fold_left check_table tables (mkValidator [] (bytes "0"))).

End Variant0.

(** The second variant: its extractor, which runs a [sregex_iterator] over the
    whole text, and its order validator.  Its [main] sets the global locale to
    en_US.UTF-8 before the pattern is built; the character classes are taken
    to be those of the "C" locale on single bytes. *)
Module Variant1.

(** The pattern of [extractTableInfo]: as in [GetTable.cpp], but the part
    after group 1 is not optional and group 2 is a run of at least one
    character. *)
Definition tablePattern : regex :=
  Seq (Chars marker)
  (Seq (Repeat cls_space 1 true)
  (Seq (Group 1 (Repeat cls_digit_dot 1 true))
  (Seq (Repeat cls_space 1 true)
  (Seq (Repeat cls_any 0 false)
  (Seq (Repeat cls_space 1 true)
       (Group 2 (Repeat cls_any 1 true))))))).

(** The body of the [for] loop of [extractTableInfo]. *)
Definition add_match (tables : list TableInfo) (m : smatch) : list TableInfo :=
  push_back tables (mkTableInfo (match_str m 1) (match_str m 2)).

Definition extractTableInfo (text : str) : list TableInfo :=
  fold_left add_match (regex_iterate tablePattern text 0) [].

Record validator : Type :=
  mkValidator { misordered : list str; prevNumber : str }.

Definition check_table (st : validator) (table : TableInfo) : validator :=
  let flagged :=
    if string_le (number table) (prevNumber st)
    then push_back (misordered st) (prevNumber st)
    else misordered st in
  mkValidator flagged (number table).

Definition findMisorderedTables (tables : list TableInfo) : list str :=
  misordered (fold_left check_table tables (mkValidator [] (bytes "0"))).

End Variant1.

Import GetTable.

(** A number of activations that is enough for a pattern on an input of [n]
    characters: one for each node, and for a quantified class one for each
    character and two more. *)
Fixpoint depth (r : regex) (n : nat) : nat :=
  match r with
  | Chars _ => 1
  | Repeat _ _ _ => n + 2
  | Group _ r' => S (depth r' n)
  | Seq r1 r2 => S (depth r1 n + depth r2 n)
  | Optional r' => S (depth r' n)
  end.

(** [extractTableInfo] with the stack of the matcher: the body of its loop,
    and the function, which has no result when a search exhausts the
    stack. *)
Definition scan_line_within (stack : nat) (tables : option (list TableInfo))
    (line : str) : option (list TableInfo) :=
  match tables with
  | None => None
  | Some tables' =>
      match regex_search_within stack line tablePattern with
      | Found m =>
          Some (push_back tables'
                  (mkTableInfo (match_str m 1) (match_str m 2)))
      | NotFound => Some tables'
      | Exhausted => None
      end
  end.

Definition extractTableInfo_within (stack : nat) (text : str)
    : option (list TableInfo) :=
  fold_left (scan_line_within stack) (getlines [] text) (Some []).

(* ------------------------------------------------------------------ *)
(** ** Reference definitions, written from the specification *)

(** The reference fold of the order validator: a cursor, two entries per
    violation (the current identifier, then the cursor), and the cursor moved
    to the current identifier after every comparison. *)
Fixpoint reference_fold (cursor : str) (records : list TableInfo) : list str :=
  match records with
  | [] => []
  | r :: records' =>
      (if string_le (number r) cursor then [number r; cursor] else [])
        ++ reference_fold (number r) records'
  end.

(** The same fold reporting one entry per violation, the cursor. *)
Fixpoint predecessor_fold (cursor : str) (records : list TableInfo) : list str :=
  match records with
  | [] => []
  | r :: records' =>
      (if string_le (number r) cursor then [cursor] else [])
        ++ predecessor_fold (number r) records'
  end.

(** The flagged records of the reference fold, each with the cursor that
    it did not exceed: pairs (offending identifier, previous identifier). *)
Fixpoint flagged_pairs (cursor : str) (records : list TableInfo)
    : list (str * str) :=
  match records with
  | [] => []
  | r :: records' =>
      (if string_le (number r) cursor then [(number r, cursor)] else [])
        ++ flagged_pairs (number r) records'
  end.

(** Every second entry of a sequence. *)
Fixpoint seconds {A : Type} (l : list A) : list A :=
  match l with
  | _ :: y :: l' => y :: seconds l'
  | _ => []
  end.

(* ------------------------------------------------------------------ *)
(** ** Definitions used to state and prove the properties *)

(** Only whitespace; no whitespace at all. *)
Definition all_space (s : str) : Prop := Forall (fun ch => isspace ch = true) s.

Definition no_space (s : str) : Prop := Forall (fun ch => isspace ch = false) s.

(** The longest prefix in a character class, and what follows it. *)
Fixpoint take_while (p : ascii -> bool) (s : str) : str :=
  match s with
  | [] => []
  | ch :: s' => if p ch then ch :: take_while p s' else []
  end.

Fixpoint drop_while (p : ascii -> bool) (s : str) : str :=
  match s with
  | [] => []
  | ch :: s' => if p ch then drop_while p s' else s
  end.

(** [s] does not start with a character of the class. *)
Definition stops (p : ascii -> bool) (s : str) : Prop :=
  forall ch t, s = ch :: t -> p ch = false.

(** Every character is in the class. *)
Definition all_in (p : ascii -> bool) (s : str) : Prop :=
  Forall (fun ch => p ch = true) s.

(** The optional part of [tablePattern]. *)
Definition title_group : regex :=
  Seq (Repeat cls_space 1 true)
  (Seq (Repeat cls_any 0 false)
  (Seq (Repeat cls_space 1 true)
       (Group 2 (Repeat cls_any 0 true)))).

(** What the optional part captures at the start of [s], with the input
    left after it: nothing unless [s] starts with whitespace; past that
    whitespace the first word (a run without whitespace) and the whitespace
    after it are skipped and the capture runs to the next line terminator;
    when no whitespace follows the word, one whitespace character is given
    back, if there are two, and the word itself is captured. *)
Definition title_of (s : str) : option (str * str) :=
  let s1 := drop_while cls_space s in
  match take_while cls_space s with
  | [] => None
  | _ :: a' =>
      match drop_while not_space s1 with
      | (_ :: _) as s2 =>
          let s3 := drop_while cls_space s2 in
          Some (take_while cls_any s3, drop_while cls_any s3)
      | [] =>
          match a' with
          | [] => None
          | _ :: _ => Some (take_while cls_any s1, drop_while cls_any s1)
          end
      end
  end.

(** What [tablePattern] matches at the very start of [s]: the text of
    group 1 and, when the optional part matched, of group 2. *)
Definition caption_at (s : str) : option (str * option str) :=
  match matchChars marker s with
  | None => None
  | Some s1 =>
      let s2 := drop_while cls_space s1 in
      match take_while cls_space s1, take_while cls_digit_dot s2 with
      | _ :: _, (_ :: _) as tok =>
          Some (tok, option_map fst (title_of (drop_while cls_digit_dot s2)))
      | _, _ => None
      end
  end.

(** The caption found by trying every start position from the left. *)
Fixpoint first_caption (s : str) : option (str * option str) :=
  match caption_at s with
  | Some c => Some c
  | None =>
      match s with
      | [] => None
      | _ :: s' => first_caption s'
      end
  end.

(** The record that a line contributes. *)
Definition line_record (line : str) : option TableInfo :=
  match first_caption line with
  | Some (tok, Some t) => Some (mkTableInfo tok t)
  | Some (tok, None) => Some (mkTableInfo tok [])
  | None => None
  end.

(** A token made of digits and periods only. *)
Definition identifier_token (tok : str) : Prop :=
  tok <> [] /\ Forall (fun ch => isdigit ch = true \/ ch = "."%char) tok.

(** The line contains the marker word. *)
Definition contains_marker (line : str) : Prop :=
  exists pre post, line = pre ++ marker ++ post.

(** The line contains the marker word followed by whitespace and then a
    token of digits and periods. *)
Definition is_caption (line : str) : Prop :=
  exists pre ws tok post,
    line = pre ++ marker ++ ws ++ tok ++ post /\
    ws <> [] /\ all_space ws /\ identifier_token tok.


(** The title that goes with the text after the identifier. *)
Definition title_text (rest : str) : str :=
  match title_of rest with
  | Some (t, _) => t
  | None => []
  end.

(** The character at which [getline] cuts. *)
Definition newline : ascii := "010"%char.


(** Whether the word occurs in the text, by trying every position. *)
Fixpoint occurs (w s : str) : bool :=
  match matchChars w s with
  | Some _ => true
  | None =>
      match s with
      | [] => false
      | _ :: s' => occurs w s'
      end
  end.

(** What [replace] does to one character of the recognised text. *)
Definition pipe_to_one (ch : ascii) : ascii :=
  if Ascii.eqb ch "|"%char then "1"%char else ch.

(** [operator<] on [std::string]. *)
Definition string_lt (a b : str) : bool :=
  match compare a b with
  | Lt => true
  | _ => false
  end.

(** The same as a relation. *)
Definition lt_string (a b : str) : Prop := string_lt a b = true.

(** The value of a digit, and the number that a string of digits writes. *)
Definition digit_value (ch : ascii) : nat := nat_of_ascii ch - 48.

Fixpoint decimal (s : str) : nat :=
  match s with
  | [] => 0
  | ch :: s' => digit_value ch * 10 ^ length s' + decimal s'
  end.

(** The result with a stack is the result without one, unless the stack is
    exhausted. *)
Definition agrees (a : attempt) (o : option smatch) : Prop :=
  a = Exhausted \/
  a = match o with
      | Some m => Found m
      | None => NotFound
      end.

(* ------------------------------------------------------------------ *)
(** ** The order validator *)

Section Validator.

Lemma fold_check_table (tables : list TableInfo) :
  forall acc cur,
    misordered (fold_left check_table tables (mkValidator acc cur))
    = acc ++ reference_fold cur tables.
Proof.
  induction tables as [|t tables IH]; intros acc cur; simpl.
  - now rewrite app_nil_r.
  - unfold check_table at 2; simpl.
    rewrite IH. unfold push_back.
    destruct (string_le (number t) cur); simpl.
    + now rewrite <- !app_assoc.
    + reflexivity.
Qed.

Lemma fold_check_table0 (tables : list TableInfo) :
  forall acc cur,
    Variant0.misordered
      (fold_left Variant0.check_table tables (Variant0.mkValidator acc cur))
    = acc ++ predecessor_fold cur tables.
Proof.
  induction tables as [|t tables IH]; intros acc cur; simpl.
  - now rewrite app_nil_r.
  - unfold Variant0.check_table at 2; simpl.
    rewrite IH. unfold push_back.
    destruct (string_le (number t) cur); simpl.
    + now rewrite <- app_assoc.
    + reflexivity.
Qed.

Lemma fold_check_table1 (tables : list TableInfo) :
  forall acc cur,
    Variant1.misordered
      (fold_left Variant1.check_table tables (Variant1.mkValidator acc cur))
    = acc ++ predecessor_fold cur tables.
Proof.
  induction tables as [|t tables IH]; intros acc cur; simpl.
  - now rewrite app_nil_r.
  - unfold Variant1.check_table at 2; simpl.
    rewrite IH. unfold push_back.
    destruct (string_le (number t) cur); simpl.
    + now rewrite <- app_assoc.
    + reflexivity.
Qed.

Lemma seconds_reference_fold (tables : list TableInfo) :
  forall cur, seconds (reference_fold cur tables) = predecessor_fold cur tables.
Proof.
  induction tables as [|t tables IH]; intros cur; simpl; [reflexivity|].
  destruct (string_le (number t) cur); simpl; now rewrite IH.
Qed.

Lemma length_reference_fold (tables : list TableInfo) :
  forall cur,
    length (reference_fold cur tables) = 2 * length (predecessor_fold cur tables).
Proof.
  induction tables as [|t tables IH]; intros cur; simpl; [reflexivity|].
  destruct (string_le (number t) cur); simpl; rewrite IH; lia.
Qed.

End Validator.

(** C1. For every sequence of records, [findMisorderedTables] equals the
    reference fold of the specification started with the cursor "0": records
    in order, two entries per violation (current identifier, then previous
    cursor), cursor moved after every comparison, first record compared with
    "0" like any other. *)
Theorem findMisorderedTables_reference_fold :
  forall tables : list TableInfo,
    findMisorderedTables tables = reference_fold (bytes "0") tables.
Proof.
  intros tables. unfold findMisorderedTables.
  now rewrite fold_check_table.
Qed.

(** C3. For records with the identifiers "2" and "10" in that order, whatever
    their titles, [findMisorderedTables] returns exactly "10", "2": "10" <=
    "2" holds for the string comparison. *)
Theorem findMisorderedTables_2_10 :
  forall title2 title10 : str,
    string_le (bytes "10") (bytes "2") = true /\
    findMisorderedTables
      [mkTableInfo (bytes "2") title2; mkTableInfo (bytes "10") title10]
    = [bytes "10"; bytes "2"].
Proof.
  intros title2 title10. split; reflexivity.
Qed.

(** C9, as stated, fails: on the identifiers "2", "10" the validator of
    [GetTable.cpp] reports two entries and the variants report one. *)
Lemma validators_differ :
  ~ (forall tables : list TableInfo,
       findMisorderedTables tables = Variant0.findMisorderedTables tables /\
       findMisorderedTables tables = Variant1.findMisorderedTables tables).
Proof.
  intros H.
  destruct (H [mkTableInfo (bytes "2") []; mkTableInfo (bytes "10") []]) as [H0 _].
  vm_compute in H0. discriminate H0.
Qed.

Lemma reference_fold_pairs (tables : list TableInfo) :
  forall cur,
    reference_fold cur tables
    = flat_map (fun p => [fst p; snd p]) (flagged_pairs cur tables).
Proof.
  induction tables as [|t tables IH]; intros cur; simpl; [reflexivity|].
  rewrite IH. destruct (string_le (number t) cur); reflexivity.
Qed.

Lemma predecessor_fold_pairs (tables : list TableInfo) :
  forall cur,
    predecessor_fold cur tables = map snd (flagged_pairs cur tables).
Proof.
  induction tables as [|t tables IH]; intros cur; simpl; [reflexivity|].
  rewrite IH. destruct (string_le (number t) cur); reflexivity.
Qed.

Lemma flagged_pairs_flagged (tables : list TableInfo) :
  forall cur,
    Forall (fun p => string_le (fst p) (snd p) = true /\
                     In (fst p) (map number tables))
      (flagged_pairs cur tables).
Proof.
  induction tables as [|t tables IH]; intros cur; simpl; [constructor|].
  assert (Hrest : Forall (fun p => string_le (fst p) (snd p) = true /\
                                   (number t = fst p \/
                                    In (fst p) (map number tables)))
                    (flagged_pairs (number t) tables)).
  { eapply Forall_impl; [|apply IH]. intros p [H1 H2]. auto. }
  destruct (string_le (number t) cur) eqn:E; [|exact Hrest].
  constructor; [|exact Hrest]. simpl. auto.
Qed.

(** C9, amended. The two variants return the same sequence on every input.
    Take the flagged records in order, each as the pair of its identifier and
    of the identifier that it did not exceed: the validator of [GetTable.cpp]
    returns both members of each pair, the offending identifier first, and
    the variants return the second member only.  So the variants' output is
    every second entry of the output of [GetTable.cpp], which is twice as
    long. *)
Theorem validators_related :
  forall tables : list TableInfo,
    Variant0.findMisorderedTables tables = Variant1.findMisorderedTables tables /\
    Variant0.findMisorderedTables tables = seconds (findMisorderedTables tables) /\
    length (findMisorderedTables tables)
    = 2 * length (Variant0.findMisorderedTables tables) /\
    findMisorderedTables tables
    = flat_map (fun p => [fst p; snd p]) (flagged_pairs (bytes "0") tables) /\
    Variant0.findMisorderedTables tables
    = map snd (flagged_pairs (bytes "0") tables) /\
    Forall (fun p => string_le (fst p) (snd p) = true /\
                     In (fst p) (map number tables))
      (flagged_pairs (bytes "0") tables).
Proof.
  intros tables.
  unfold findMisorderedTables, Variant0.findMisorderedTables,
    Variant1.findMisorderedTables.
  rewrite fold_check_table, fold_check_table0, fold_check_table1. simpl.
  rewrite seconds_reference_fold, length_reference_fold.
  repeat split; auto.
  - apply reference_fold_pairs.
  - apply predecessor_fold_pairs.
  - apply flagged_pairs_flagged.
Qed.

(* ------------------------------------------------------------------ *)
(** ** [trim] *)

Section Trim.

Variable p : ascii -> bool.

Lemma find_if_le (s : str) : find_if p s <= length s.
Proof.
  induction s as [|ch s IH]; simpl; [lia|].
  destruct (p ch); simpl; lia.
Qed.

Lemma find_if_firstn (s : str) :
  Forall (fun ch => p ch = false) (firstn (find_if p s) s).
Proof.
  induction s as [|ch s IH]; simpl; [constructor|].
  destruct (p ch) eqn:E; simpl; [constructor|].
  constructor; assumption.
Qed.

Lemma find_if_skipn (s : str) :
  forall ch t, skipn (find_if p s) s = ch :: t -> p ch = true.
Proof.
  induction s as [|x s IH]; simpl; intros ch t H; [discriminate|].
  destruct (p x) eqn:E; simpl in H.
  - now injection H as -> _.
  - eauto.
Qed.

Lemma find_if_head (s : str) :
  (forall ch t, s = ch :: t -> p ch = true) -> find_if p s = 0.
Proof.
  destruct s as [|x s]; simpl; intros H; [reflexivity|].
  now rewrite (H x s eq_refl).
Qed.

End Trim.

Lemma not_space_false (ch : ascii) : not_space ch = false -> isspace ch = true.
Proof. unfold not_space. now destruct (isspace ch). Qed.

Lemma not_space_true (ch : ascii) : not_space ch = true -> isspace ch = false.
Proof. unfold not_space. now destruct (isspace ch). Qed.

Lemma trim_unfold (s : str) :
  let s1 := skipn (find_if not_space s) s in
  trim s = rev (skipn (find_if not_space (rev s1)) (rev s1)).
Proof.
  intros s1. unfold trim, erase. simpl firstn. simpl app. fold s1.
  rewrite skipn_all, app_nil_r, firstn_skipn_rev.
  f_equal. f_equal.
  pose proof (find_if_le not_space (rev s1)) as Hle.
  rewrite length_rev in Hle. lia.
Qed.

Lemma trim_fixed (x : str) :
  (forall ch t, x = ch :: t -> isspace ch = false) ->
  (forall t ch, x = t ++ [ch] -> isspace ch = false) ->
  trim x = x.
Proof.
  intros Hhead Hlast. rewrite trim_unfold.
  assert (H0 : find_if not_space x = 0).
  { apply find_if_head. intros ch t E. unfold not_space.
    now rewrite (Hhead ch t E). }
  rewrite H0. simpl skipn.
  assert (H1 : find_if not_space (rev x) = 0).
  { apply find_if_head. intros ch t E. unfold not_space.
    rewrite (Hlast (rev t) ch); [reflexivity|].
    rewrite <- (rev_involutive x), E. reflexivity. }
  rewrite H1. simpl skipn. apply rev_involutive.
Qed.

(** C10. For every string [s], [trim s] is [s] without its leading and its
    trailing whitespace: [s] is a run of whitespace, then [trim s], then a
    run of whitespace, and [trim s] neither starts nor ends with a whitespace
    character.  [trim] is idempotent. *)
Theorem trim_spec :
  forall s : str,
    (exists l r : str,
        s = l ++ trim s ++ r /\ all_space l /\ all_space r) /\
    (forall ch t, trim s = ch :: t -> isspace ch = false) /\
    (forall t ch, trim s = t ++ [ch] -> isspace ch = false) /\
    trim (trim s) = trim s.
Proof.
  intros s.
  pose proof (trim_unfold s) as Hu. cbv zeta in Hu.
  set (f := find_if not_space s) in *.
  set (s1 := skipn f s) in *.
  set (g := find_if not_space (rev s1)) in *.
  assert (Hs1 : s1 = trim s ++ rev (firstn g (rev s1))).
  { rewrite Hu, <- rev_app_distr, firstn_skipn. now rewrite rev_involutive. }
  assert (Hhead : forall ch t, trim s = ch :: t -> isspace ch = false).
  { intros ch t E. apply not_space_true.
    apply (find_if_skipn not_space s) with (t := t ++ rev (firstn g (rev s1))).
    fold f. fold s1. rewrite Hs1 at 1. now rewrite E. }
  assert (Hlast : forall t ch, trim s = t ++ [ch] -> isspace ch = false).
  { intros t ch E. apply not_space_true.
    apply (find_if_skipn not_space (rev s1)) with (t := rev t).
    fold g. rewrite <- (rev_involutive (skipn g (rev s1))), <- Hu, E.
    now rewrite rev_app_distr. }
  split; [|split; [exact Hhead|split; [exact Hlast|]]].
  - exists (firstn f s), (rev (firstn g (rev s1))).
    split; [|split].
    + rewrite <- Hs1. unfold s1. now rewrite firstn_skipn.
    + unfold all_space.
      eapply Forall_impl; [|apply (find_if_firstn not_space s)].
      intros a Ha. now apply not_space_false.
    + unfold all_space. apply Forall_rev.
      eapply Forall_impl; [|apply (find_if_firstn not_space (rev s1))].
      intros a Ha. now apply not_space_false.
  - now apply trim_fixed.
Qed.

(* ------------------------------------------------------------------ *)
(** ** Runs of a character class *)

Section Runs.

Variable p : ascii -> bool.

Lemma take_drop (s : str) : take_while p s ++ drop_while p s = s.
Proof.
  induction s as [|ch s IH]; simpl; [reflexivity|].
  destruct (p ch); simpl; [now rewrite IH | reflexivity].
Qed.

Lemma take_while_all (s : str) : all_in p (take_while p s).
Proof.
  induction s as [|ch s IH]; simpl; [constructor|].
  destruct (p ch) eqn:E; constructor; assumption.
Qed.

Lemma drop_while_stops (s : str) : stops p (drop_while p s).
Proof.
  induction s as [|x s IH]; simpl; intros ch t H; [discriminate|].
  destruct (p x) eqn:E; [eauto|].
  now injection H as <- _.
Qed.

Lemma drop_while_length (s : str) : length (drop_while p s) <= length s.
Proof.
  induction s as [|x s IH]; simpl; [lia|].
  destruct (p x); simpl; lia.
Qed.

Lemma span_app (u v : str) :
  all_in p u -> stops p v ->
  take_while p (u ++ v) = u /\ drop_while p (u ++ v) = v.
Proof.
  intros Hu Hv. induction Hu as [|x u Hx Hu IH]; simpl.
  - destruct v as [|y v]; simpl; [auto|].
    now rewrite (Hv y v eq_refl).
  - rewrite Hx. destruct IH as [-> ->]. auto.
Qed.

Lemma stops_nil : stops p [].
Proof. intros ch t H. discriminate H. Qed.

Lemma stops_cons (ch : ascii) (t : str) : p ch = false -> stops p (ch :: t).
Proof. intros H x t' E. now injection E as <- _. Qed.

Lemma take_while_stops (s : str) : stops p s -> take_while p s = [].
Proof.
  destruct s as [|x s]; simpl; intros H; [reflexivity|].
  now rewrite (H x s eq_refl).
Qed.

End Runs.

Lemma firstn_app_sub (u v : str) :
  firstn (length (u ++ v) - length v) (u ++ v) = u.
Proof.
  rewrite length_app.
  replace (length u + length v - length v) with (length u) by lia.
  rewrite firstn_app, firstn_all, Nat.sub_diag. simpl. apply app_nil_r.
Qed.

(* ------------------------------------------------------------------ *)
(** ** The loops of the matcher *)

Section RepeatMatcher.

Variable cls : ascii -> bool.
Variable k : str -> option smatch.

(** The greedy loop takes the whole run when the continuation accepts
    what follows it. *)
Lemma greedy_whole_run (u v : str) :
  all_in cls u -> stops cls v -> k v <> None ->
  forall min, min <= length u ->
    repeatMatcher cls true k min (u ++ v) = k v.
Proof.
  intros Hu Hv Hk. induction Hu as [|x u Hx Hu IH]; intros min Hmin; simpl in *.
  - assert (min = 0) as -> by lia. simpl.
    destruct v as [|y v]; simpl; [reflexivity|].
    now rewrite (Hv y v eq_refl).
  - destruct min as [|min]; rewrite Hx.
    + rewrite (IH 0) by lia. destruct (k v); [reflexivity | contradiction].
    + apply IH. lia.
Qed.

(** With exactly the owed number of repetitions available there is one
    candidate only. *)
Lemma greedy_exact_run (u v : str) :
  all_in cls u -> stops cls v ->
  repeatMatcher cls true k (length u) (u ++ v) = k v.
Proof.
  intros Hu Hv. induction Hu as [|x u Hx Hu IH]; simpl.
  - destruct v as [|y v]; simpl; [reflexivity|].
    now rewrite (Hv y v eq_refl).
  - now rewrite Hx.
Qed.

(** When the continuation refuses the whole run, the greedy loop gives
    back one character. *)
Lemma greedy_give_back (u v : str) (ch : ascii) :
  all_in cls u -> cls ch = true -> stops cls v ->
  k v = None -> k (ch :: v) <> None ->
  forall min, min <= length u ->
    repeatMatcher cls true k min (u ++ ch :: v) = k (ch :: v).
Proof.
  intros Hu Hch Hv Hnone Hk.
  induction Hu as [|x u Hx Hu IH]; intros min Hmin; simpl in *.
  - assert (min = 0) as -> by lia. simpl. rewrite Hch.
    destruct v as [|y v]; simpl.
    + now rewrite Hnone.
    + rewrite (Hv y v eq_refl). now rewrite Hnone.
  - destruct min as [|min]; rewrite Hx.
    + rewrite (IH 0) by lia.
      destruct (k (ch :: v)); [reflexivity | contradiction].
    + apply IH. lia.
Qed.

(** A continuation that refuses every input starting inside the run
    leaves the greedy loop one candidate, the end of the run. *)
Lemma greedy_refused_inside (u v : str) :
  (forall ch t, cls ch = true -> k (ch :: t) = None) ->
  all_in cls u -> stops cls v ->
  forall min,
    repeatMatcher cls true k min (u ++ v)
    = if min <=? length u then k v else None.
Proof.
  intros Hrej Hu Hv. induction Hu as [|x u Hx Hu IH]; intros min; simpl app.
  - destruct min as [|min]; simpl.
    + destruct v as [|y v]; simpl; [reflexivity|].
      now rewrite (Hv y v eq_refl).
    + destruct v as [|y v]; simpl; [reflexivity|].
      now rewrite (Hv y v eq_refl).
  - destruct min as [|min]; simpl; rewrite Hx.
    + rewrite (IH 0). simpl.
      destruct (k v); [reflexivity|]. now apply Hrej.
    + apply IH.
Qed.

(** Either loop fails when the continuation refuses every suffix. *)
Lemma repeat_all_refused (greedy : bool) (s : str) :
  (forall pre t, s = pre ++ t -> k t = None) ->
  forall min, repeatMatcher cls greedy k min s = None.
Proof.
  induction s as [|x s IH]; intros Hk min.
  - destruct min, greedy; simpl; try reflexivity; now rewrite (Hk [] []).
  - assert (IH' : forall m, repeatMatcher cls greedy k m s = None).
    { apply IH. intros pre t E. apply (Hk (x :: pre) t). now rewrite E. }
    destruct min, greedy; simpl; rewrite ?IH', ?(Hk [] (x :: s) eq_refl);
      destruct (cls x); reflexivity.
Qed.

(** The lazy loop stops at the first place the continuation accepts. *)
Lemma lazy_first_accept (u v : str) :
  all_in cls u ->
  (forall pre ch t, u = pre ++ ch :: t -> k (ch :: t ++ v) = None) ->
  k v <> None ->
  repeatMatcher cls false k 0 (u ++ v) = k v.
Proof.
  intros Hu. induction Hu as [|x u Hx Hu IH]; intros Hnone Hk; simpl.
  - destruct v as [|y v]; simpl.
    + destruct (k []); [reflexivity | contradiction].
    + destruct (k (y :: v)); [reflexivity | contradiction].
  - rewrite (Hnone [] x u eq_refl), Hx.
    apply IH; [|assumption].
    intros pre ch t E. apply (Hnone (x :: pre)). now rewrite E.
Qed.

End RepeatMatcher.

(* ------------------------------------------------------------------ *)
(** ** The caption pattern *)

Lemma space_not_digit_dot (ch : ascii) :
  isspace ch = true -> cls_digit_dot ch = false.
Proof.
  destruct ch as [[] [] [] [] [] [] [] []]; vm_compute; congruence.
Qed.

Lemma not_space_any (ch : ascii) : isspace ch = false -> cls_any ch = true.
Proof.
  destruct ch as [[] [] [] [] [] [] [] []]; vm_compute; congruence.
Qed.

Lemma matcher_group_greedy (n : nat) (cls : ascii -> bool) (min : nat)
    (u v : str) (caps : smatch) (k : str -> smatch -> option smatch) :
  all_in cls u -> stops cls v -> min <= length u ->
  k v (set_group n u caps) <> None ->
  matcher (Group n (Repeat cls min true)) (u ++ v) caps k
  = k v (set_group n u caps).
Proof.
  intros Hu Hv Hmin Hk. simpl matcher.
  rewrite greedy_whole_run; rewrite ?firstn_app_sub; auto.
Qed.

Lemma matcher_capture_any (s : str) (caps : smatch)
    (k : str -> smatch -> option smatch) :
  k (drop_while cls_any s) (set_group 2 (take_while cls_any s) caps) <> None ->
  matcher (Group 2 (Repeat cls_any 0 true)) s caps k
  = k (drop_while cls_any s) (set_group 2 (take_while cls_any s) caps).
Proof.
  intros Hk. rewrite <- (take_drop cls_any s) at 1.
  apply matcher_group_greedy; auto using take_while_all, drop_while_stops.
  lia.
Qed.

(** [\s+] and then group 2, at a non-empty run of whitespace. *)
Lemma matcher_space_capture (w s : str) (caps : smatch)
    (k : str -> smatch -> option smatch) :
  w <> [] -> all_in cls_space w -> stops cls_space s ->
  k (drop_while cls_any s) (set_group 2 (take_while cls_any s) caps) <> None ->
  matcher (Seq (Repeat cls_space 1 true) (Group 2 (Repeat cls_any 0 true)))
    (w ++ s) caps k
  = k (drop_while cls_any s) (set_group 2 (take_while cls_any s) caps).
Proof.
  intros Hw Hall Hs Hk.
  change (repeatMatcher cls_space true
            (fun s' => matcher (Group 2 (Repeat cls_any 0 true)) s' caps k)
            1 (w ++ s)
          = k (drop_while cls_any s) (set_group 2 (take_while cls_any s) caps)).
  rewrite greedy_whole_run; auto.
  - now apply matcher_capture_any.
  - now rewrite matcher_capture_any.
  - destruct w; simpl; [contradiction | lia].
Qed.

(** [\s+] cannot start at a character that is not whitespace. *)
Lemma matcher_space_stops (s : str) (caps : smatch)
    (r : regex) (k : str -> smatch -> option smatch) :
  stops cls_space s ->
  matcher (Seq (Repeat cls_space 1 true) r) s caps k = None.
Proof.
  intros Hs. simpl. destruct s as [|x s]; simpl; [reflexivity|].
  now rewrite (Hs x s eq_refl).
Qed.

Lemma matcher_lazy_skip (u v : str) (caps : smatch) (r : regex)
    (k : str -> smatch -> option smatch) :
  all_in cls_any u ->
  (forall pre ch t, u = pre ++ ch :: t -> matcher r (ch :: t ++ v) caps k = None) ->
  matcher r v caps k <> None ->
  matcher (Seq (Repeat cls_any 0 false) r) (u ++ v) caps k = matcher r v caps k.
Proof.
  intros Hu Hnone Hk.
  change (repeatMatcher cls_any false (fun s' => matcher r s' caps k) 0 (u ++ v)
          = matcher r v caps k).
  now rewrite lazy_first_accept.
Qed.

Lemma all_not_space_suffix (pre t : str) :
  all_in not_space (pre ++ t) -> stops cls_space t.
Proof.
  intros H ch t' ->. apply Forall_app in H as [_ H].
  apply Forall_inv in H. now apply not_space_true.
Qed.

Lemma all_not_space_any (s : str) : all_in not_space s -> all_in cls_any s.
Proof.
  intros H. eapply Forall_impl; [|exact H].
  intros ch Hch. now apply not_space_any, not_space_true.
Qed.

Section TitleGroup.

Variable caps : smatch.
Variable k : str -> smatch -> option smatch.

Let captured (s : str) : option smatch :=
  k (drop_while cls_any s) (set_group 2 (take_while cls_any s) caps).

(** No whitespace at the start: the group does not match. *)
Lemma title_group_no_space (s : str) :
  stops cls_space s -> matcher title_group s caps k = None.
Proof. apply matcher_space_stops. Qed.

(** The lazy run and what follows it fail on a text without whitespace. *)
Lemma title_tail_no_space (s : str) :
  all_in not_space s ->
  matcher (Seq (Repeat cls_any 0 false)
            (Seq (Repeat cls_space 1 true) (Group 2 (Repeat cls_any 0 true))))
    s caps k = None.
Proof.
  intros Hs.
  change (repeatMatcher cls_any false
            (fun s' => matcher (Seq (Repeat cls_space 1 true)
                                  (Group 2 (Repeat cls_any 0 true))) s' caps k)
            0 s = None).
  apply repeat_all_refused. intros pre t E.
  apply matcher_space_stops. apply all_not_space_suffix with (pre := pre).
  now rewrite <- E.
Qed.

(** Whitespace, a word, whitespace: the capture starts after them. *)
Lemma title_group_word (a b w s : str) :
  a <> [] -> all_in cls_space a ->
  b <> [] -> all_in not_space b ->
  w <> [] -> all_in cls_space w ->
  stops cls_space s -> captured s <> None ->
  matcher title_group (a ++ b ++ w ++ s) caps k = captured s.
Proof.
  intros Ha Hall_a Hb Hall_b Hw Hall_w Hs Hk.
  assert (Htail :
    matcher (Seq (Repeat cls_any 0 false)
              (Seq (Repeat cls_space 1 true) (Group 2 (Repeat cls_any 0 true))))
      (b ++ w ++ s) caps k = captured s).
  { rewrite matcher_lazy_skip.
    - now apply matcher_space_capture.
    - now apply all_not_space_any.
    - intros pre ch t E. apply matcher_space_stops.
      apply stops_cons. apply not_space_true.
      rewrite E in Hall_b. apply Forall_app in Hall_b as [_ H].
      now apply Forall_inv in H.
    - now rewrite matcher_space_capture. }
  change (repeatMatcher cls_space true
            (fun s' => matcher (Seq (Repeat cls_any 0 false)
                         (Seq (Repeat cls_space 1 true)
                            (Group 2 (Repeat cls_any 0 true)))) s' caps k)
            1 (a ++ b ++ w ++ s) = captured s).
  rewrite greedy_whole_run; auto.
  - destruct b as [|x b]; [contradiction|]. simpl.
    apply stops_cons, not_space_true. now apply Forall_inv in Hall_b.
  - now rewrite Htail.
  - destruct a; simpl; [contradiction | lia].
Qed.

(** Whitespace and a last word: one whitespace character is given back
    and the word is captured. *)
Lemma title_group_last_word (a s : str) (ch : ascii) :
  a <> [] -> all_in cls_space a -> cls_space ch = true ->
  all_in not_space s -> captured s <> None ->
  matcher title_group (a ++ ch :: s) caps k = captured s.
Proof.
  intros Ha Hall_a Hch Hs Hk.
  assert (Hback :
    matcher (Seq (Repeat cls_any 0 false)
              (Seq (Repeat cls_space 1 true) (Group 2 (Repeat cls_any 0 true))))
      (ch :: s) caps k = captured s).
  { assert (Hcap :
      matcher (Seq (Repeat cls_space 1 true) (Group 2 (Repeat cls_any 0 true)))
        (ch :: s) caps k = captured s).
    { apply (matcher_space_capture [ch]); auto.
      - discriminate.
      - now constructor.
      - now apply all_not_space_suffix with (pre := []). }
    rewrite (matcher_lazy_skip [] (ch :: s)).
    - exact Hcap.
    - constructor.
    - intros [|? ?] ? ? E; discriminate E.
    - now rewrite Hcap. }
  change (repeatMatcher cls_space true
            (fun s' => matcher (Seq (Repeat cls_any 0 false)
                         (Seq (Repeat cls_space 1 true)
                            (Group 2 (Repeat cls_any 0 true)))) s' caps k)
            1 (a ++ ch :: s) = captured s).
  rewrite greedy_give_back; auto.
  - now apply all_not_space_suffix with (pre := []).
  - now apply title_tail_no_space.
  - now rewrite Hback.
  - destruct a; simpl; [contradiction | lia].
Qed.

(** One whitespace character and a last word: the group does not match. *)
Lemma title_group_one_space (s : str) (ch : ascii) :
  cls_space ch = true -> all_in not_space s ->
  matcher title_group (ch :: s) caps k = None.
Proof.
  intros Hch Hs.
  change (repeatMatcher cls_space true
            (fun s' => matcher (Seq (Repeat cls_any 0 false)
                         (Seq (Repeat cls_space 1 true)
                            (Group 2 (Repeat cls_any 0 true)))) s' caps k)
            (length [ch]) ([ch] ++ s) = None).
  rewrite greedy_exact_run.
  - now apply title_tail_no_space.
  - now constructor.
  - now apply all_not_space_suffix with (pre := []).
Qed.

End TitleGroup.

(** The optional part against [title_of], for a continuation that accepts
    every shorter input. *)
Lemma title_group_spec (s : str) (caps : smatch)
    (k : str -> smatch -> option smatch) :
  (forall s' caps', length s' < length s -> k s' caps' <> None) ->
  match title_of s with
  | Some (t, s') =>
      length s' < length s /\
      matcher title_group s caps k = k s' (set_group 2 t caps)
  | None => matcher title_group s caps k = None
  end.
Proof.
  intros Hk. unfold title_of.
  pose proof (take_drop cls_space s) as Es.
  pose proof (take_while_all cls_space s) as Ha.
  pose proof (drop_while_stops cls_space s) as Hs1.
  remember (drop_while cls_space s) as s1 eqn:Rs1.
  destruct (take_while cls_space s) as [|x a'].
  { apply title_group_no_space. simpl in Es. now rewrite <- Es. }
  pose proof (take_drop not_space s1) as E1.
  pose proof (take_while_all not_space s1) as Hb.
  pose proof (drop_while_stops not_space s1) as Hs2.
  remember (take_while not_space s1) as b eqn:Rb.
  destruct (drop_while not_space s1) as [|z s2'].
  - rewrite app_nil_r in E1. subst b. rewrite E1 in Hb.
    destruct a' as [|y a''].
    + rewrite <- Es. simpl. apply title_group_one_space; [|assumption].
      now apply Forall_inv in Ha.
    + destruct (@exists_last _ (x :: y :: a'')) as (a0 & ch & Ea); [discriminate|].
      rewrite Ea in Es, Ha. rewrite <- app_assoc in Es. simpl in Es.
      apply Forall_app in Ha as [Ha0 Hch]. apply Forall_inv in Hch.
      assert (Hlen : length (drop_while cls_any s1) < length s).
      { pose proof (drop_while_length cls_any s1).
        rewrite <- Es, length_app. simpl. lia. }
      split; [exact Hlen|].
      rewrite <- Es. apply title_group_last_word; auto.
      destruct a0; [discriminate Ea | discriminate].
  - assert (Hz : isspace z = true).
    { apply not_space_false. exact (Hs2 z s2' eq_refl). }
    pose proof (take_drop cls_space (z :: s2')) as E3.
    pose proof (take_while_all cls_space (z :: s2')) as Hw.
    pose proof (drop_while_stops cls_space (z :: s2')) as Hs3.
    remember (drop_while cls_space (z :: s2')) as s3 eqn:Rs3.
    remember (take_while cls_space (z :: s2')) as w eqn:Rw.
    assert (Hw0 : w <> []).
    { subst w. simpl. unfold cls_space. rewrite Hz. discriminate. }
    assert (Hb0 : b <> []).
    { intros ->. simpl in E1. rewrite <- E1 in Hs1.
      specialize (Hs1 z s2' eq_refl). unfold cls_space in Hs1. congruence. }
    assert (Es' : (x :: a') ++ b ++ w ++ s3 = s) by now rewrite E3, E1.
    assert (Hlen : length (drop_while cls_any s3) < length s).
    { pose proof (drop_while_length cls_any s3).
      rewrite <- Es', !length_app. simpl. lia. }
    split; [exact Hlen|].
    rewrite <- Es' at 1. apply title_group_word; auto.
    discriminate.
Qed.

Section Pattern.

Variable k : str -> smatch -> option smatch.
Hypothesis k_accepts : forall s caps, k s caps <> None.

Lemma matcher_optional_title (s : str) (caps : smatch) :
  matcher (Optional title_group) s caps k
  = match title_of s with
    | Some (t, s') => k s' (set_group 2 t caps)
    | None => k s caps
    end.
Proof.
  change (matcher (Optional title_group) s caps k)
    with (match matcher title_group s caps
                  (fun s' caps' =>
                     if length s' =? length s then None else k s' caps')
          with
          | Some m => Some m
          | None => k s caps
          end).
  pose proof (title_group_spec s caps
    (fun s' caps' => if length s' =? length s then None else k s' caps')) as H.
  destruct (title_of s) as [[t s']|].
  - destruct H as [Hlen ->].
    + intros s'' caps' Hlt.
      replace (length s'' =? length s) with false
        by (symmetry; apply Nat.eqb_neq; lia).
      apply k_accepts.
    + replace (length s' =? length s) with false
        by (symmetry; apply Nat.eqb_neq; lia).
      destruct (k s' (set_group 2 t caps)) eqn:E; [reflexivity|].
      now apply k_accepts in E.
  - rewrite H; [reflexivity|].
    intros s'' caps' Hlt.
    replace (length s'' =? length s) with false
      by (symmetry; apply Nat.eqb_neq; lia).
    apply k_accepts.
Qed.

Lemma matcher_optional_accepts (s : str) (caps : smatch) :
  matcher (Optional title_group) s caps k <> None.
Proof.
  rewrite matcher_optional_title.
  destruct (title_of s) as [[t s']|]; apply k_accepts.
Qed.

(** Group 1 and the optional part. *)
Lemma matcher_number_title (s : str) (caps : smatch) :
  matcher (Seq (Group 1 (Repeat cls_digit_dot 1 true)) (Optional title_group))
    s caps k
  = match take_while cls_digit_dot s with
    | [] => None
    | tok =>
        match title_of (drop_while cls_digit_dot s) with
        | Some (t, s') => k s' (set_group 2 t (set_group 1 tok caps))
        | None => k (drop_while cls_digit_dot s) (set_group 1 tok caps)
        end
    end.
Proof.
  pose proof (take_drop cls_digit_dot s) as Es.
  pose proof (take_while_all cls_digit_dot s) as Htok.
  pose proof (drop_while_stops cls_digit_dot s) as Hrest.
  destruct (take_while cls_digit_dot s) as [|x tok].
  - simpl in Es. rewrite Es in Hrest. simpl.
    destruct s as [|y s]; simpl; [reflexivity|].
    now rewrite (Hrest y s eq_refl).
  - rewrite <- Es at 1.
    change (matcher (Group 1 (Repeat cls_digit_dot 1 true))
              ((x :: tok) ++ drop_while cls_digit_dot s) caps
              (fun s' caps' => matcher (Optional title_group) s' caps' k)
            = match title_of (drop_while cls_digit_dot s) with
              | Some (t, s') => k s' (set_group 2 t (set_group 1 (x :: tok) caps))
              | None =>
                  k (drop_while cls_digit_dot s) (set_group 1 (x :: tok) caps)
              end).
    rewrite matcher_group_greedy; auto.
    + apply matcher_optional_title.
    + simpl. lia.
    + apply matcher_optional_accepts.
Qed.

(** The part of the pattern after the marker word. *)
Lemma matcher_after_marker (s : str) (caps : smatch) :
  matcher (Seq (Repeat cls_space 1 true)
            (Seq (Group 1 (Repeat cls_digit_dot 1 true))
                 (Optional title_group))) s caps k
  = match take_while cls_space s with
    | [] => None
    | _ :: _ =>
        matcher (Seq (Group 1 (Repeat cls_digit_dot 1 true))
                     (Optional title_group))
          (drop_while cls_space s) caps k
    end.
Proof.
  pose proof (take_drop cls_space s) as Es.
  pose proof (take_while_all cls_space s) as Ha.
  pose proof (drop_while_stops cls_space s) as Hs.
  remember (drop_while cls_space s) as s1 eqn:Rs1.
  remember (take_while cls_space s) as a eqn:Ra.
  rewrite <- Es at 1.
  change (repeatMatcher cls_space true
            (fun s' => matcher (Seq (Group 1 (Repeat cls_digit_dot 1 true))
                                    (Optional title_group)) s' caps k)
            1 (a ++ s1)
          = match a with
            | [] => None
            | _ :: _ =>
                matcher (Seq (Group 1 (Repeat cls_digit_dot 1 true))
                             (Optional title_group)) s1 caps k
            end).
  rewrite greedy_refused_inside; auto.
  - destruct a; reflexivity.
  - intros ch t Hch. simpl. now rewrite (space_not_digit_dot ch Hch).
Qed.

End Pattern.

Lemma matchChars_app (w s : str) : matchChars w (w ++ s) = Some s.
Proof.
  induction w as [|x w IH]; simpl; [reflexivity|].
  now rewrite Ascii.eqb_refl.
Qed.

Lemma matchChars_sound (w s s' : str) : matchChars w s = Some s' -> s = w ++ s'.
Proof.
  revert s. induction w as [|x w IH]; simpl; intros s H.
  - now injection H as ->.
  - destruct s as [|y s]; [discriminate|].
    destruct (Ascii.eqb x y) eqn:E; [|discriminate].
    apply Ascii.eqb_eq in E as ->. now rewrite (IH s H).
Qed.

(** The matcher at one start position. *)
Lemma matcher_caption_at (s : str) :
  match caption_at s with
  | Some (tok, ot) =>
      exists m,
        matcher (Group 0 tablePattern) s no_match (fun _ caps => Some caps)
        = Some m /\ m 1 = Some tok /\ m 2 = ot
  | None =>
      matcher (Group 0 tablePattern) s no_match (fun _ caps => Some caps) = None
  end.
Proof.
  set (k0 := fun (s' : str) (caps' : smatch) =>
               Some (set_group 0 (firstn (length s - length s') s) caps')).
  change (matcher (Group 0 tablePattern) s no_match (fun _ caps => Some caps))
    with (match matchChars marker s with
          | Some s1 =>
              matcher (Seq (Repeat cls_space 1 true)
                        (Seq (Group 1 (Repeat cls_digit_dot 1 true))
                             (Optional title_group))) s1 no_match k0
          | None => None
          end).
  unfold caption_at.
  destruct (matchChars marker s) as [s1|]; [|reflexivity].
  assert (Hk0 : forall s' caps, k0 s' caps <> None) by discriminate.
  rewrite matcher_after_marker by exact Hk0.
  destruct (take_while cls_space s1) as [|x a]; [reflexivity|].
  rewrite matcher_number_title by exact Hk0.
  destruct (take_while cls_digit_dot (drop_while cls_space s1)) as [|y tok];
    [reflexivity|].
  destruct (title_of _) as [[t s']|]; simpl;
    eexists; (split; [reflexivity|split; reflexivity]).
Qed.

(** [regex_search] with [tablePattern] finds the first caption. *)
Lemma regex_search_first_caption (s : str) :
  match first_caption s with
  | Some (tok, ot) =>
      exists m,
        regex_search s tablePattern = Some m /\ m 1 = Some tok /\ m 2 = ot
  | None => regex_search s tablePattern = None
  end.
Proof.
  induction s as [|x s IH].
  - reflexivity.
  - pose proof (matcher_caption_at (x :: s)) as H. simpl first_caption.
    change (regex_search (x :: s) tablePattern)
      with (match matcher (Group 0 tablePattern) (x :: s) no_match
                    (fun _ caps => Some caps) with
            | Some m => Some m
            | None => regex_search s tablePattern
            end).
    destruct (caption_at (x :: s)) as [[tok ot]|].
    + destruct H as (m & -> & H1 & H2). now exists m.
    + rewrite H. exact IH.
Qed.

Lemma scan_line_record (tables : list TableInfo) (line : str) :
  scan_line tables line
  = match line_record line with
    | Some r => tables ++ [r]
    | None => tables
    end.
Proof.
  unfold scan_line, line_record.
  pose proof (regex_search_first_caption line) as H.
  destruct (first_caption line) as [[tok ot]|].
  - destruct H as (m & -> & H1 & H2). unfold match_str, push_back.
    rewrite H1, H2. now destruct ot.
  - now rewrite H.
Qed.

Lemma fold_scan_line (lines : list str) :
  forall tables,
    fold_left scan_line lines tables
    = tables ++ concat (map (fun line => match line_record line with
                                         | Some r => [r]
                                         | None => []
                                         end) lines).
Proof.
  induction lines as [|line lines IH]; intros tables; simpl.
  - now rewrite app_nil_r.
  - rewrite IH, scan_line_record.
    destruct (line_record line); [now rewrite <- app_assoc | reflexivity].
Qed.

(* ------------------------------------------------------------------ *)
(** ** Captions, as the specification words them *)

Lemma digit_dot_token (tok : str) :
  all_in cls_digit_dot tok <->
  Forall (fun ch => isdigit ch = true \/ ch = "."%char) tok.
Proof.
  unfold all_in. rewrite !Forall_forall.
  split; intros H ch Hin; specialize (H ch Hin); unfold cls_digit_dot in *.
  - apply orb_true_iff in H as [H|H]; [now left|right].
    now apply Ascii.eqb_eq in H.
  - apply orb_true_iff. destruct H as [H| ->]; [now left|right].
    apply Ascii.eqb_refl.
Qed.

Lemma no_space_not_space (s : str) : no_space s <-> all_in not_space s.
Proof.
  unfold no_space, all_in, not_space. rewrite !Forall_forall.
  split; intros H ch Hin; specialize (H ch Hin);
    destruct (isspace ch); simpl in *; congruence.
Qed.

(** A match at the start of the input, taken apart. *)
Lemma caption_at_some (s tok : str) (ot : option str) :
  caption_at s = Some (tok, ot) ->
  exists ws rest,
    s = marker ++ ws ++ tok ++ rest /\
    ws <> [] /\ all_in cls_space ws /\
    tok <> [] /\ all_in cls_digit_dot tok /\
    stops cls_digit_dot rest /\
    ot = option_map fst (title_of rest).
Proof.
  unfold caption_at. intros H.
  destruct (matchChars marker s) as [s1|] eqn:Em; [|discriminate].
  apply matchChars_sound in Em.
  pose proof (take_drop cls_space s1) as E1.
  pose proof (take_while_all cls_space s1) as Hws.
  pose proof (take_drop cls_digit_dot (drop_while cls_space s1)) as E2.
  pose proof (take_while_all cls_digit_dot (drop_while cls_space s1)) as Htok.
  pose proof (drop_while_stops cls_digit_dot (drop_while cls_space s1)) as Hrest.
  destruct (take_while cls_space s1) as [|x ws]; [discriminate|].
  destruct (take_while cls_digit_dot (drop_while cls_space s1)) as [|y tok'];
    [discriminate|].
  injection H as <- <-.
  exists (x :: ws), (drop_while cls_digit_dot (drop_while cls_space s1)).
  repeat split; try assumption; try discriminate.
  now rewrite Em, E2, E1.
Qed.

(** The match at the start of a caption. *)
Lemma caption_at_caption (ws tok rest : str) :
  ws <> [] -> all_in cls_space ws ->
  tok <> [] -> all_in cls_digit_dot tok ->
  stops cls_digit_dot rest ->
  caption_at (marker ++ ws ++ tok ++ rest)
  = Some (tok, option_map fst (title_of rest)).
Proof.
  intros Hws0 Hws Htok0 Htok Hrest. unfold caption_at.
  rewrite matchChars_app.
  assert (Hstop : stops cls_space (tok ++ rest)).
  { destruct tok as [|x tok]; [contradiction|]. simpl. apply stops_cons.
    apply Forall_inv in Htok.
    destruct (cls_space x) eqn:E; [|reflexivity].
    apply space_not_digit_dot in E. congruence. }
  destruct (span_app cls_space ws (tok ++ rest) Hws Hstop) as [-> ->].
  destruct (span_app cls_digit_dot tok rest Htok Hrest) as [-> ->].
  destruct ws; [contradiction|]. destruct tok; [contradiction|]. reflexivity.
Qed.

(** A caption whose token may go on: there is a match all the same. *)
Lemma caption_at_is_some (ws tok post : str) :
  ws <> [] -> all_in cls_space ws ->
  tok <> [] -> all_in cls_digit_dot tok ->
  caption_at (marker ++ ws ++ tok ++ post) <> None.
Proof.
  intros Hws0 Hws Htok0 Htok.
  pose proof (take_drop cls_digit_dot post) as E.
  rewrite <- E, (app_assoc tok).
  rewrite caption_at_caption; auto.
  - discriminate.
  - destruct tok; [contradiction | discriminate].
  - apply Forall_app. split; [assumption | apply take_while_all].
  - apply drop_while_stops.
Qed.

Lemma first_caption_cons (x : ascii) (s : str) :
  first_caption (x :: s)
  = match caption_at (x :: s) with
    | Some c => Some c
    | None => first_caption s
    end.
Proof. reflexivity. Qed.

Lemma caption_at_nil : caption_at [] = None.
Proof. reflexivity. Qed.

Lemma first_caption_some (s : str) (c : str * option str) :
  first_caption s = Some c ->
  exists pre t, s = pre ++ t /\ caption_at t = Some c.
Proof.
  induction s as [|x s IH].
  - discriminate.
  - rewrite first_caption_cons.
    destruct (caption_at (x :: s)) eqn:E; intros H.
    + exists [], (x :: s). now rewrite E.
    + destruct (IH H) as (pre & t & -> & Ht).
      now exists (x :: pre), t.
Qed.

Lemma first_caption_here (s : str) (c : str * option str) :
  caption_at s = Some c -> first_caption s = Some c.
Proof.
  intros H. destruct s as [|x s].
  - rewrite caption_at_nil in H. discriminate H.
  - now rewrite first_caption_cons, H.
Qed.

Lemma first_caption_later (pre t : str) :
  caption_at t <> None -> first_caption (pre ++ t) <> None.
Proof.
  intros H. induction pre as [|x pre IH]; simpl app.
  - destruct (caption_at t) as [c|] eqn:E; [|contradiction].
    now rewrite (first_caption_here t c E).
  - rewrite first_caption_cons.
    destruct (caption_at (x :: pre ++ t)); [discriminate | exact IH].
Qed.

Lemma line_record_some (line : str) (r : TableInfo) :
  line_record line = Some r ->
  exists pre ws rest,
    line = pre ++ marker ++ ws ++ number r ++ rest /\
    ws <> [] /\ all_space ws /\
    identifier_token (number r) /\
    stops cls_digit_dot rest /\
    title r = title_text rest.
Proof.
  unfold line_record. intros H.
  destruct (first_caption line) as [[tok ot]|] eqn:E; [|discriminate].
  apply first_caption_some in E as (pre & t & -> & Ht).
  apply caption_at_some in Ht
    as (ws & rest & -> & Hws0 & Hws & Htok0 & Htok & Hrest & ->).
  exists pre, ws, rest. unfold title_text, identifier_token.
  destruct (title_of rest) as [[t s']|]; simpl in H; injection H as <-; simpl;
    repeat split; auto; now apply digit_dot_token.
Qed.

Lemma line_record_caption (line : str) :
  line_record line <> None <-> is_caption line.
Proof.
  split.
  - destruct (line_record line) as [r|] eqn:E; [intros _ | contradiction].
    apply line_record_some in E
      as (pre & ws & rest & -> & Hws0 & Hws & Htok & _).
    now exists pre, ws, (number r), rest.
  - intros (pre & ws & tok & post & -> & Hws0 & Hws & Htok0 & Htok).
    apply digit_dot_token in Htok.
    pose proof (first_caption_later pre _
                  (caption_at_is_some ws tok post Hws0 Hws Htok0 Htok)) as H.
    unfold line_record.
    destruct (first_caption _) as [[tok' [t|]]|]; [discriminate..|contradiction].
Qed.

Lemma is_caption_contains_marker (line : str) :
  is_caption line -> contains_marker line.
Proof.
  intros (pre & ws & tok & post & -> & _).
  now exists pre, (ws ++ tok ++ post).
Qed.

Lemma extractTableInfo_lines (text : str) :
  extractTableInfo text
  = concat (map (fun line => match line_record line with
                             | Some r => [r]
                             | None => []
                             end) (getlines [] text)).
Proof. unfold extractTableInfo. now rewrite fold_scan_line. Qed.


(* ------------------------------------------------------------------ *)
(** ** Lines *)





(* ------------------------------------------------------------------ *)
(** ** The title, by the shape of the text after the identifier *)

Lemma no_space_stops (word rest : str) :
  word <> [] -> no_space word -> stops cls_space (word ++ rest).
Proof.
  intros H0 H. destruct word as [|x word]; [contradiction|].
  simpl. apply stops_cons. now apply Forall_inv in H.
Qed.

Lemma all_space_stops (w rest : str) :
  w <> [] -> all_space w -> stops not_space (w ++ rest).
Proof.
  intros H0 H. destruct w as [|x w]; [contradiction|].
  simpl. apply stops_cons. apply Forall_inv in H. unfold not_space.
  now rewrite H.
Qed.

Lemma title_text_no_space (rest : str) :
  stops cls_space rest -> title_text rest = [].
Proof.
  intros H. unfold title_text, title_of.
  now rewrite (take_while_stops cls_space rest H).
Qed.

Lemma title_text_word (w1 sep w2 t : str) :
  w1 <> [] -> all_space w1 ->
  sep <> [] -> no_space sep ->
  w2 <> [] -> all_space w2 ->
  stops cls_space t ->
  title_text (w1 ++ sep ++ w2 ++ t) = take_while cls_any t.
Proof.
  intros H1 Hw1 Hs Hsep H2 Hw2 Ht. unfold title_text, title_of.
  destruct (span_app cls_space w1 (sep ++ w2 ++ t) Hw1) as [-> ->].
  { now apply no_space_stops. }
  destruct (span_app not_space sep (w2 ++ t)) as [_ ->].
  { now apply no_space_not_space. }
  { now apply all_space_stops. }
  destruct (span_app cls_space w2 t Hw2 Ht) as [_ E].
  destruct w1 as [|x w1]; [contradiction|].
  destruct w2 as [|y w2]; [contradiction|].
  change ((y :: w2) ++ t) with (y :: w2 ++ t) in *.
  cbv beta iota zeta.
  now rewrite E.
Qed.

Lemma title_text_last_word (w1 word : str) :
  2 <= length w1 -> all_space w1 -> no_space word ->
  title_text (w1 ++ word) = word.
Proof.
  intros Hlen Hw1 Hword. unfold title_text, title_of.
  assert (Hstop : stops cls_space word).
  { destruct word as [|x word]; [apply stops_nil|].
    now apply (no_space_stops (x :: word) []) in Hword;
      [rewrite app_nil_r in Hword | discriminate]. }
  destruct (span_app cls_space w1 word Hw1 Hstop) as [-> ->].
  apply no_space_not_space in Hword.
  destruct (span_app not_space word [] Hword (stops_nil _)) as [_ E].
  rewrite app_nil_r in E. rewrite E.
  destruct (span_app cls_any word [] (all_not_space_any word Hword) (stops_nil _))
    as [E1 _].
  rewrite app_nil_r in E1. rewrite E1.
  destruct w1 as [|x [|y w1]]; simpl in Hlen; try lia. reflexivity.
Qed.

Lemma title_text_one_space (ch : ascii) (word : str) :
  isspace ch = true -> no_space word -> title_text (ch :: word) = [].
Proof.
  intros Hch Hword. unfold title_text, title_of.
  assert (Hstop : stops cls_space word).
  { destruct word as [|x word]; [apply stops_nil|].
    now apply (no_space_stops (x :: word) []) in Hword;
      [rewrite app_nil_r in Hword | discriminate]. }
  assert (Hone : all_in cls_space [ch]) by now constructor.
  destruct (span_app cls_space [ch] word Hone Hstop) as [E1 E2].
  simpl app in E1, E2. rewrite E1, E2.
  apply no_space_not_space in Hword.
  destruct (span_app not_space word [] Hword (stops_nil _)) as [_ E].
  rewrite app_nil_r in E. now rewrite E.
Qed.

(** A line that [scan_line] matches, taken apart around its identifier. *)
Lemma scan_line_matched (line : str) (r : TableInfo) :
  scan_line [] line = [r] -> line_record line = Some r.
Proof.
  rewrite scan_line_record.
  destruct (line_record line); [now injection 1 as -> | discriminate].
Qed.

(* ------------------------------------------------------------------ *)
(** ** Extraction *)



Lemma occurs_app (w pre post : str) : occurs w (pre ++ w ++ post) = true.
Proof.
  induction pre as [|x pre IH]; simpl app.
  - destruct (w ++ post) eqn:E; simpl; rewrite <- E, matchChars_app; reflexivity.
  - simpl. destruct (matchChars w (x :: pre ++ w ++ post)); [reflexivity | exact IH].
Qed.

Lemma occurs_marker (line : str) :
  occurs marker line = false -> ~ contains_marker line.
Proof.
  intros H (pre & post & ->). now rewrite occurs_app in H.
Qed.

(** C2, as stated, fails: on the line "Таблица 7 Итог" the text after the
    identifier is " Итог", and the title is empty. *)
Lemma title_not_whole_rest :
  exists r : TableInfo,
    extractTableInfo (bytes "Таблица 7 Итог") = [r] /\
    bytes "Таблица 7 Итог" = marker ++ bytes " " ++ number r ++ bytes " Итог" /\
    title r <> bytes " Итог" /\
    title r <> trim (bytes " Итог").
Proof.
  exists (mkTableInfo (bytes "7") []).
  repeat split; try reflexivity; vm_compute; discriminate.
Qed.

(** C2, amended. A line that the extractor matches is: some text, the marker
    word, whitespace, the identifier, and a rest that does not go on with a
    digit or a period.  The title is empty when the rest is empty or does not
    start with whitespace.  When the rest is whitespace, a first word,
    whitespace and a text, the title is that text up to its first line
    terminator: the first word is left out.  When the rest is whitespace and
    one last word, the title is that word if the whitespace has two
    characters or more, and empty if it has one. *)
Theorem title_after_identifier :
  forall (line : str) (r : TableInfo),
    scan_line [] line = [r] ->
    exists pre ws rest,
      line = pre ++ marker ++ ws ++ number r ++ rest /\
      ws <> [] /\ all_space ws /\ stops cls_digit_dot rest /\
      (rest = [] -> title r = []) /\
      (stops isspace rest -> title r = []) /\
      (forall w1 sep w2 t,
          rest = w1 ++ sep ++ w2 ++ t ->
          w1 <> [] -> all_space w1 ->
          sep <> [] -> no_space sep ->
          w2 <> [] -> all_space w2 ->
          stops isspace t ->
          title r = take_while cls_any t) /\
      (forall w1 word,
          rest = w1 ++ word ->
          2 <= length w1 -> all_space w1 -> no_space word ->
          title r = word) /\
      (forall ch word,
          rest = ch :: word ->
          isspace ch = true -> no_space word ->
          title r = []).
Proof.
  intros line r H. apply scan_line_matched in H.
  apply line_record_some in H
    as (pre & ws & rest & E & Hws0 & Hws & _ & Hrest & Ht).
  exists pre, ws, rest. rewrite Ht.
  repeat split; try assumption.
  - intros ->. reflexivity.
  - apply title_text_no_space.
  - intros w1 sep w2 t -> H1 Hw1 Hs Hsep H2 Hw2 Hstop.
    now apply title_text_word.
  - intros w1 word -> Hlen Hw1 Hword. now apply title_text_last_word.
  - intros ch word -> Hch Hword. now apply title_text_one_space.
Qed.

Lemma title_after_identifier_witness :
  scan_line [] (bytes "Таблица 1 - Общие сведения")
  = [mkTableInfo (bytes "1") (bytes "Общие сведения")] /\
  exists pre ws rest,
    bytes "Таблица 1 - Общие сведения"
    = pre ++ marker ++ ws ++ bytes "1" ++ rest /\
    ws <> [] /\ all_space ws /\ stops cls_digit_dot rest /\
    (rest = [] -> bytes "Общие сведения" = []) /\
    (stops isspace rest -> bytes "Общие сведения" = []) /\
    (forall w1 sep w2 t,
        rest = w1 ++ sep ++ w2 ++ t ->
        w1 <> [] -> all_space w1 ->
        sep <> [] -> no_space sep ->
        w2 <> [] -> all_space w2 ->
        stops isspace t ->
        bytes "Общие сведения" = take_while cls_any t) /\
    (forall w1 word,
        rest = w1 ++ word ->
        2 <= length w1 -> all_space w1 -> no_space word ->
        bytes "Общие сведения" = word) /\
    (forall ch word,
        rest = ch :: word ->
        isspace ch = true -> no_space word ->
        bytes "Общие сведения" = []).
Proof.
  assert (H : scan_line [] (bytes "Таблица 1 - Общие сведения")
              = [mkTableInfo (bytes "1") (bytes "Общие сведения")])
    by (vm_compute; reflexivity).
  split; [exact H|].
  exact (title_after_identifier _ _ H).
Defined.

(** C4, as stated, fails: the title is not "Список параметров". *)
Lemma caption_3_1_title_differs :
  extractTableInfo (bytes "Таблица 3.1   Список параметров")
  <> [mkTableInfo (bytes "3.1") (bytes "Список параметров")].
Proof. vm_compute. discriminate. Qed.

(** C4, amended. For the line "Таблица 3.1   Список параметров" extraction
    gives exactly one record, with the identifier "3.1" and the title
    "параметров": the first word after the identifier is left out. *)
Theorem caption_3_1 :
  extractTableInfo (bytes "Таблица 3.1   Список параметров")
  = [mkTableInfo (bytes "3.1") (bytes "параметров")].
Proof. vm_compute. reflexivity. Qed.

(** C5. For the line "Таблица 5", with nothing after the identifier,
    extraction gives exactly one record, with the identifier "5" and the
    empty title. *)
Theorem caption_5 :
  extractTableInfo (bytes "Таблица 5") = [mkTableInfo (bytes "5") []].
Proof. vm_compute. reflexivity. Qed.

(** Further lines: a dash between the identifier and the title is the word
    that is left out; a carriage return ends the title; a line without
    caption is passed over. *)
Example caption_with_dash :
  extractTableInfo (bytes "Таблица 1 - Общие сведения")
  = [mkTableInfo (bytes "1") (bytes "Общие сведения")].
Proof. vm_compute. reflexivity. Qed.

Example captions_in_text :
  extractTableInfo
    (bytes "Таблица 2.1 - Состав" ++ ["013"; "010"]%char
       ++ bytes "текст" ++ ["010"]%char
       ++ bytes "см. Таблица 2.2  Итог")
  = [mkTableInfo (bytes "2.1") (bytes "Состав");
     mkTableInfo (bytes "2.2") (bytes "Итог")].
Proof. vm_compute. reflexivity. Qed.

(* ------------------------------------------------------------------ *)
(** ** The replacement of pipes *)

Lemma replace_app (s t : str) (old new : ascii) :
  replace (s ++ t) old new = replace s old new ++ replace t old new.
Proof. apply map_app. Qed.

Lemma space_not_pipe (ch : ascii) :
  isspace ch = true -> Ascii.eqb ch "|"%char = false.
Proof.
  destruct ch as [[] [] [] [] [] [] [] []]; vm_compute; congruence.
Qed.

Lemma replace_all_space (ws : str) :
  all_space ws -> replace ws "|"%char "1"%char = ws.
Proof.
  intros H. induction H as [|x ws Hx _ IH]; simpl; [reflexivity|].
  now rewrite (space_not_pipe x Hx), IH.
Qed.

Lemma replace_no_pipe (s : str) : ~ In "|"%char (replace s "|"%char "1"%char).
Proof.
  unfold replace. intros H. apply in_map_iff in H as (x & Hx & _).
  destruct (Ascii.eqb x "|"%char) eqn:E; [discriminate Hx|].
  subst x. vm_compute in E. discriminate E.
Qed.

Lemma replace_stops (rest : str) :
  stops cls_digit_dot rest ->
  stops (fun ch => Ascii.eqb ch "|"%char) rest ->
  stops cls_digit_dot (replace rest "|"%char "1"%char).
Proof.
  intros Hd Hp. destruct rest as [|x rest]; [apply stops_nil|].
  simpl. rewrite (Hp x rest eq_refl). apply stops_cons.
  exact (Hd x rest eq_refl).
Qed.

Lemma replace_newline (ch : ascii) :
  Ascii.eqb (pipe_to_one ch) "010"%char = Ascii.eqb ch "010"%char.
Proof.
  unfold pipe_to_one. destruct (Ascii.eqb ch "|"%char) eqn:E; [|reflexivity].
  apply Ascii.eqb_eq in E. now subst ch.
Qed.

(** The replacement does not move the line boundaries. *)
Lemma getlines_replace (ss : str) :
  forall line,
    getlines (replace line "|"%char "1"%char) (replace ss "|"%char "1"%char)
    = map (fun l => replace l "|"%char "1"%char) (getlines line ss).
Proof.
  induction ss as [|ch ss IH]; intros line; simpl.
  - destruct line; reflexivity.
  - fold (pipe_to_one ch). rewrite replace_newline.
    destruct (Ascii.eqb ch "010"%char).
    + simpl. f_equal. apply (IH []).
    + rewrite <- IH. unfold push_back. now rewrite replace_app.
Qed.

Lemma replace_eq_word (w s : str) :
  Forall (fun ch => ch <> "1"%char) w ->
  replace s "|"%char "1"%char = w -> s = w.
Proof.
  intros Hw. revert s. induction Hw as [|x w Hx _ IH]; intros s E.
  - now apply map_eq_nil in E.
  - apply map_eq_cons in E as (a & tl & -> & Ha & Htl).
    rewrite (IH tl Htl). f_equal.
    destruct (Ascii.eqb a "|"%char); [now symmetry in Ha | exact Ha].
Qed.

(** The marker word occurs in the replaced text where it occurs in the
    text. *)
Lemma replace_marker_occurrence (s p q : str) :
  replace s "|"%char "1"%char = p ++ marker ++ q ->
  exists p' q', s = p' ++ marker ++ q' /\ length p' = length p.
Proof.
  intros E.
  apply map_eq_app in E as (p' & t & -> & Hp & Ht).
  apply map_eq_app in Ht as (m & q' & -> & Hm & _).
  apply replace_eq_word in Hm.
  - subst m. exists p', q'. split; [reflexivity|].
    rewrite <- Hp. symmetry. apply length_map.
  - repeat constructor; discriminate.
Qed.

(** Start positions before the first marker word have no match. *)
Lemma first_caption_skip (pre t : str) :
  (forall p q, pre ++ t = p ++ marker ++ q -> length pre <= length p) ->
  first_caption (pre ++ t) = first_caption t.
Proof.
  induction pre as [|x pre IH]; intros H; [reflexivity|].
  simpl app. rewrite first_caption_cons.
  assert (E : caption_at (x :: pre ++ t) = None).
  { unfold caption_at.
    destruct (matchChars marker (x :: pre ++ t)) as [s1|] eqn:Em; [|reflexivity].
    apply matchChars_sound in Em.
    specialize (H [] s1 Em). simpl in H. lia. }
  rewrite E. apply IH. intros p q Epq.
  specialize (H (x :: p) q). simpl in H. rewrite Epq in H.
  specialize (H eq_refl). lia.
Qed.

(** The record of a line from the first marker word on. *)
Lemma line_record_first_marker (pre ws tok rest : str) :
  (forall p q,
      pre ++ marker ++ ws ++ tok ++ rest = p ++ marker ++ q ->
      length pre <= length p) ->
  ws <> [] -> all_space ws ->
  tok <> [] -> all_in cls_digit_dot tok ->
  stops cls_digit_dot rest ->
  exists r,
    line_record (pre ++ marker ++ ws ++ tok ++ rest) = Some r /\ number r = tok.
Proof.
  intros Hfirst Hws0 Hws Htok0 Htok Hrest. unfold line_record.
  rewrite (first_caption_skip _ _ Hfirst).
  rewrite (first_caption_here _ _
             (caption_at_caption ws tok rest Hws0 Hws Htok0 Htok Hrest)).
  destruct (title_of rest) as [[t s']|]; simpl; eexists; split; reflexivity.
Qed.

Lemma extractTableInfo_in (text line : str) (r : TableInfo) :
  In line (getlines [] text) -> line_record line = Some r ->
  In r (extractTableInfo text).
Proof.
  intros Hin Hr. rewrite extractTableInfo_lines. apply in_concat.
  exists [r]. split; [|now left].
  apply in_map_iff. exists line. now rewrite Hr.
Qed.

(** C6. [main] replaces the pipes before it extracts anything.  The
    replacement keeps the length and every character but the pipes, each of
    which becomes the digit 1; no pipe is left.  So a line of the text whose
    first marker word is followed by whitespace and the identifier token
    "2|1" gives exactly one record, with the identifier "211", and that record
    is among the tables of [main]. *)
Theorem pipes_become_ones :
  forall outText : str,
    length (replace outText "|"%char "1"%char) = length outText /\
    (forall i,
        nth_error (replace outText "|"%char "1"%char) i
        = option_map pipe_to_one (nth_error outText i)) /\
    ~ In "|"%char (replace outText "|"%char "1"%char) /\
    fst (recognise outText)
    = extractTableInfo (replace outText "|"%char "1"%char) /\
    (forall line pre ws rest,
        In line (getlines [] outText) ->
        line = pre ++ marker ++ ws ++ bytes "2|1" ++ rest ->
        (forall p q, line = p ++ marker ++ q -> length pre <= length p) ->
        ws <> [] -> all_space ws ->
        stops cls_digit_dot rest ->
        stops (fun ch => Ascii.eqb ch "|"%char) rest ->
        exists r,
          scan_line [] (replace line "|"%char "1"%char) = [r] /\
          number r = bytes "211" /\
          In r (fst (recognise outText))).
Proof.
  intros outText. split; [|split; [|split; [|split]]].
  - apply length_map.
  - intros i. unfold replace. apply nth_error_map.
  - apply replace_no_pipe.
  - reflexivity.
  - intros line pre ws rest Hin -> Hfirst Hws0 Hws Hd Hp.
    assert (E : replace (pre ++ marker ++ ws ++ bytes "2|1" ++ rest)
                  "|"%char "1"%char
                = replace pre "|"%char "1"%char ++ marker ++ ws ++ bytes "211"
                    ++ replace rest "|"%char "1"%char).
    { rewrite !replace_app, (replace_all_space ws Hws). reflexivity. }
    destruct (line_record_first_marker
                (replace pre "|"%char "1"%char) ws (bytes "211")
                (replace rest "|"%char "1"%char)) as (r & Hr & Hnum); auto.
    + intros p q Epq. rewrite <- E in Epq.
      apply replace_marker_occurrence in Epq as (p' & q' & Epq & <-).
      unfold replace. rewrite length_map. now apply (Hfirst p' q').
    + discriminate.
    + repeat constructor.
    + now apply replace_stops.
    + exists r. rewrite <- E in Hr. split; [|split; [exact Hnum|]].
      * now rewrite scan_line_record, Hr.
      * unfold recognise. cbv zeta. unfold fst.
        apply extractTableInfo_in with (2 := Hr).
        rewrite (getlines_replace outText []
                   : getlines [] (replace outText "|"%char "1"%char) = _).
        apply in_map_iff.
        now eexists.
Qed.

(** The line "Таблица 2|1 Итог" of the specification. *)
Lemma pipes_become_ones_witness :
  exists r,
    scan_line [] (replace (bytes "Таблица 2|1 Итог") "|"%char "1"%char) = [r] /\
    number r = bytes "211" /\
    In r (fst (recognise (bytes "Таблица 2|1 Итог"))).
Proof.
  refine (proj2 (proj2 (proj2 (proj2
            (pipes_become_ones (bytes "Таблица 2|1 Итог")))))
            (bytes "Таблица 2|1 Итог") [] (bytes " ") (bytes " Итог")
            _ eq_refl _ _ _ _ _).
  - left. reflexivity.
  - intros p q _. apply Nat.le_0_l.
  - discriminate.
  - repeat constructor.
  - apply stops_cons. reflexivity.
  - apply stops_cons. reflexivity.
Defined.

(* ------------------------------------------------------------------ *)
(** ** The order of strings *)

Lemma compare_refl (a : str) : compare a a = Eq.
Proof.
  induction a as [|x a IH]; simpl; [reflexivity|].
  unfold Ascii.compare. now rewrite N.compare_refl.
Qed.

Lemma compare_antisym (a : str) : forall b, compare b a = CompOpp (compare a b).
Proof.
  induction a as [|x a IH]; intros [|y b]; simpl; try reflexivity.
  rewrite (Ascii.compare_antisym y x).
  destruct (Ascii.compare x y); simpl; auto.
Qed.

Lemma compare_eq (a : str) : forall b, compare a b = Eq -> a = b.
Proof.
  induction a as [|x a IH]; intros [|y b]; simpl; try discriminate; auto.
  destruct (Ascii.compare x y) eqn:E; try discriminate.
  intros H. apply Ascii.compare_eq_iff in E. subst y. now rewrite (IH b H).
Qed.

Lemma compare_lt_trans (a : str) :
  forall b c, compare a b = Lt -> compare b c = Lt -> compare a c = Lt.
Proof.
  induction a as [|x a IH]; intros [|y b] [|z c]; simpl; try discriminate; auto.
  unfold Ascii.compare.
  destruct (N.compare_spec (N_of_ascii x) (N_of_ascii y)) as [Exy|Lxy|Gxy];
    try discriminate;
    destruct (N.compare_spec (N_of_ascii y) (N_of_ascii z)) as [Eyz|Lyz|Gyz];
    try discriminate; intros Hab Hbc.
  - rewrite Exy, Eyz, N.compare_refl. eauto.
  - rewrite Exy. now apply N.compare_lt_iff in Lyz as ->.
  - rewrite <- Eyz. now apply N.compare_lt_iff in Lxy as ->.
  - assert (H : (N_of_ascii x < N_of_ascii z)%N) by (eapply N.lt_trans; eauto).
    now apply N.compare_lt_iff in H as ->.
Qed.

Lemma string_le_false_lt (a b : str) : string_le a b = false <-> string_lt b a = true.
Proof.
  unfold string_le, string_lt. rewrite (compare_antisym a b).
  destruct (compare a b); simpl; split; congruence.
Qed.

Lemma string_le_refl (a : str) : string_le a a = true.
Proof. unfold string_le. now rewrite compare_refl. Qed.

Lemma string_lt_trans (a b c : str) :
  string_lt a b = true -> string_lt b c = true -> string_lt a c = true.
Proof.
  unfold string_lt. intros Hab Hbc.
  destruct (compare a b) eqn:Eab; try discriminate.
  destruct (compare b c) eqn:Ebc; try discriminate.
  now rewrite (compare_lt_trans a b c Eab Ebc).
Qed.

(** A string is smaller than each of its proper extensions. *)
Lemma compare_extension (a ext : str) : ext <> [] -> compare a (a ++ ext) = Lt.
Proof.
  intros Hext. induction a as [|x a IH]; simpl.
  - destruct ext; [contradiction | reflexivity].
  - unfold Ascii.compare. now rewrite N.compare_refl.
Qed.

(* ------------------------------------------------------------------ *)
(** ** More on the order validator *)

Lemma reference_fold_nil (tables : list TableInfo) :
  forall cur,
    reference_fold cur tables = [] <->
    Sorted lt_string (cur :: map number tables).
Proof.
  induction tables as [|t tables IH]; intros cur; simpl.
  - split; [repeat constructor | reflexivity].
  - destruct (string_le (number t) cur) eqn:E; simpl.
    + split; [discriminate|]. intros H.
      apply Sorted_inv in H as [_ H]. apply HdRel_inv in H.
      apply string_le_false_lt in H. congruence.
    + rewrite IH. split.
      * intros H. constructor; [exact H|]. constructor.
        now apply string_le_false_lt.
      * intros H. now apply Sorted_inv in H as [H _].
Qed.

Lemma last_default (l : list str) (x d d' : str) :
  last (x :: l) d = last (x :: l) d'.
Proof.
  revert x. induction l as [|y l IH]; intros x; [reflexivity|].
  exact (IH y).
Qed.

Lemma reference_fold_app (l1 l2 : list TableInfo) :
  forall cur,
    reference_fold cur (l1 ++ l2)
    = reference_fold cur l1 ++ reference_fold (last (map number l1) cur) l2.
Proof.
  induction l1 as [|t l1 IH]; intros cur; [reflexivity|].
  cbn [app reference_fold map]. rewrite IH, <- app_assoc. do 2 f_equal.
  destruct l1 as [|t0 l1]; [reflexivity|].
  cbn [map]. rewrite (last_default _ (number t) cur (number t)).
  reflexivity.
Qed.

Lemma validator_fold (tables : list TableInfo) :
  findMisorderedTables tables = reference_fold (bytes "0") tables.
Proof. unfold findMisorderedTables. now rewrite fold_check_table. Qed.

Lemma validator_snoc (l : list TableInfo) (a b : TableInfo) :
  findMisorderedTables (l ++ [a; b])
  = findMisorderedTables (l ++ [a])
      ++ (if string_le (number b) (number a) then [number b; number a] else []).
Proof.
  change (l ++ [a; b]) with (l ++ [a] ++ [b]). rewrite app_assoc.
  rewrite !validator_fold, (reference_fold_app (l ++ [a]) [b]).
  rewrite map_app. cbn [map]. rewrite last_last. simpl.
  now rewrite app_nil_r.
Qed.

Lemma validator_silent (tables : list TableInfo) :
  findMisorderedTables tables = [] <->
  StronglySorted lt_string (bytes "0" :: map number tables).
Proof.
  rewrite validator_fold, reference_fold_nil. split.
  - apply Sorted_StronglySorted. intros a b c. apply string_lt_trans.
  - apply StronglySorted_Sorted.
Qed.

(** X1. [findMisorderedTables] reports nothing exactly when "0" and the
    identifiers, in order, are strictly increasing for the string order: each
    one greater than all those before it. *)
Theorem validator_silent_iff_increasing :
  forall tables : list TableInfo,
    findMisorderedTables tables = [] <->
    StronglySorted lt_string (bytes "0" :: map number tables).
Proof.
  intros tables. split; intros H.
  - now apply validator_silent.
  - now apply validator_silent.
Qed.

(** X2. What is reported for a record depends on it and on the record just
    before it only: the output for [l1 ++ a :: b :: l2] is the output for
    [l1 ++ [a]], then the pair [b], [a] when [b <= a], then what the records
    [l2] give with the cursor at [b]. *)
Theorem validator_adjacent :
  forall (l1 l2 : list TableInfo) (a b : TableInfo),
    findMisorderedTables (l1 ++ a :: b :: l2)
    = findMisorderedTables (l1 ++ [a])
        ++ (if string_le (number b) (number a)
            then [number b; number a] else [])
        ++ reference_fold (number b) l2.
Proof.
  intros l1 l2 a b.
  change (l1 ++ a :: b :: l2) with (l1 ++ [a] ++ b :: l2). rewrite app_assoc.
  rewrite !validator_fold, (reference_fold_app (l1 ++ [a]) (b :: l2)).
  rewrite map_app. cbn [map]. rewrite last_last. reflexivity.
Qed.

(** X3. The titles play no part: two sequences of records with the same
    identifiers give the same report. *)
Theorem validator_ignores_titles :
  forall t1 t2 : list TableInfo,
    map number t1 = map number t2 ->
    findMisorderedTables t1 = findMisorderedTables t2.
Proof.
  intros t1 t2 H. rewrite !validator_fold. generalize (bytes "0").
  revert t2 H. induction t1 as [|a t1 IH]; intros [|b t2] H cur;
    try discriminate; [reflexivity|].
  simpl in *. injection H as Hab H. rewrite Hab. f_equal. now apply IH.
Qed.

Lemma validator_ignores_titles_witness :
  map number [mkTableInfo (bytes "2") (bytes "Состав"); mkTableInfo (bytes "10") []]
  = map number [mkTableInfo (bytes "2") []; mkTableInfo (bytes "10") (bytes "Итог")]
  /\
  findMisorderedTables
    [mkTableInfo (bytes "2") (bytes "Состав"); mkTableInfo (bytes "10") []]
  = findMisorderedTables
      [mkTableInfo (bytes "2") []; mkTableInfo (bytes "10") (bytes "Итог")].
Proof.
  split; [reflexivity|].
  apply validator_ignores_titles. reflexivity.
Defined.

Lemma reference_fold_shape (tables : list TableInfo) :
  forall cur,
    (exists n, length (reference_fold cur tables) = 2 * n /\ n <= length tables) /\
    (forall e, In e (reference_fold cur tables) ->
               e = cur \/ In e (map number tables)).
Proof.
  induction tables as [|t tables IH]; intros cur; simpl.
  - split; [exists 0; auto | intros e []].
  - destruct (IH (number t)) as [(n & Hn & Hle) Hin].
    destruct (string_le (number t) cur); simpl.
    + split; [exists (S n); split; lia|].
      intros e [<-|[<-|He]]; auto.
      destruct (Hin e He) as [->|H]; auto.
    + split; [exists n; split; lia|].
      intros e He. destruct (Hin e He) as [->|H]; auto.
Qed.

(** X4. The report has two entries for each flagged record, so an even length,
    at most twice the number of records; each entry is an identifier of the
    input or the initial "0". *)
Theorem validator_report_shape :
  forall tables : list TableInfo,
    (exists n, length (findMisorderedTables tables) = 2 * n /\
               n <= length tables) /\
    (forall e, In e (findMisorderedTables tables) ->
               e = bytes "0" \/ In e (map number tables)).
Proof.
  intros tables. rewrite validator_fold. apply reference_fold_shape.
Qed.

(** X5. An identifier that extends the one before it (as "3.1" extends "3") is
    never flagged; the shorter one after the longer one always is. *)
Theorem validator_extension :
  forall (l : list TableInfo) (a b : TableInfo) (ext : str),
    ext <> [] -> number b = number a ++ ext ->
    findMisorderedTables (l ++ [a; b]) = findMisorderedTables (l ++ [a]) /\
    findMisorderedTables (l ++ [b; a])
    = findMisorderedTables (l ++ [b]) ++ [number a; number b].
Proof.
  intros l a b ext Hext Hb. rewrite !validator_snoc, Hb.
  unfold string_le. rewrite (compare_antisym (number a) (number a ++ ext)).
  rewrite (compare_extension (number a) ext Hext). simpl.
  now rewrite app_nil_r.
Qed.

Lemma validator_extension_witness :
  findMisorderedTables
    ([] ++ [mkTableInfo (bytes "3") []; mkTableInfo (bytes "3.1") []])
  = findMisorderedTables ([] ++ [mkTableInfo (bytes "3") []]) /\
  findMisorderedTables
    ([] ++ [mkTableInfo (bytes "3.1") []; mkTableInfo (bytes "3") []])
  = findMisorderedTables ([] ++ [mkTableInfo (bytes "3.1") []])
      ++ [bytes "3"; bytes "3.1"].
Proof.
  apply (validator_extension [] (mkTableInfo (bytes "3") [])
           (mkTableInfo (bytes "3.1") []) (bytes ".1")).
  - discriminate.
  - reflexivity.
Defined.

(** X6. A record with the same identifier as the one before it is always
    flagged. *)
Theorem validator_duplicate :
  forall (l : list TableInfo) (a b : TableInfo),
    number b = number a ->
    findMisorderedTables (l ++ [a; b])
    = findMisorderedTables (l ++ [a]) ++ [number a; number a].
Proof.
  intros l a b Hb. now rewrite validator_snoc, Hb, string_le_refl.
Qed.

Lemma validator_duplicate_witness :
  findMisorderedTables
    ([] ++ [mkTableInfo (bytes "1") []; mkTableInfo (bytes "1") (bytes "x")])
  = findMisorderedTables ([] ++ [mkTableInfo (bytes "1") []])
      ++ [bytes "1"; bytes "1"].
Proof.
  apply (validator_duplicate [] (mkTableInfo (bytes "1") [])
           (mkTableInfo (bytes "1") (bytes "x"))).
  reflexivity.
Defined.

(* ------------------------------------------------------------------ *)
(** ** More on [trim] *)

Lemma find_if_app (p : ascii -> bool) (u v : str) :
  Forall (fun ch => p ch = false) u ->
  find_if p (u ++ v) = length u + find_if p v.
Proof.
  intros H. induction H as [|x u Hx _ IH]; simpl; [reflexivity|].
  now rewrite Hx, IH.
Qed.

Lemma all_space_not_space (s : str) :
  all_space s -> Forall (fun ch => not_space ch = false) s.
Proof.
  intros H. eapply Forall_impl; [|exact H].
  intros ch Hch. unfold not_space. now rewrite Hch.
Qed.

Lemma skipn_find_if_app (p : ascii -> bool) (u v : str) :
  Forall (fun ch => p ch = false) u ->
  (forall ch t, v = ch :: t -> p ch = true) ->
  skipn (find_if p (u ++ v)) (u ++ v) = v.
Proof.
  intros Hu Hv. rewrite (find_if_app p u v Hu), (find_if_head p v Hv).
  rewrite Nat.add_0_r, skipn_app, skipn_all, Nat.sub_diag. reflexivity.
Qed.

(** The parts of a string around [trim s]. *)
Lemma trim_core (s : str) :
  exists l r : str,
    s = l ++ trim s ++ r /\ all_space l /\ all_space r /\
    (forall ch t, trim s = ch :: t -> isspace ch = false) /\
    (forall t ch, trim s = t ++ [ch] -> isspace ch = false).
Proof.
  pose proof (trim_unfold s) as Hu. cbv zeta in Hu.
  set (f := find_if not_space s) in *.
  set (s1 := skipn f s) in *.
  set (g := find_if not_space (rev s1)) in *.
  assert (Hs1 : s1 = trim s ++ rev (firstn g (rev s1))).
  { rewrite Hu, <- rev_app_distr, firstn_skipn. now rewrite rev_involutive. }
  exists (firstn f s), (rev (firstn g (rev s1))).
  split; [|split; [|split; [|split]]].
  - rewrite <- Hs1. unfold s1. now rewrite firstn_skipn.
  - unfold all_space.
    eapply Forall_impl; [|apply (find_if_firstn not_space s)].
    intros a Ha. now apply not_space_false.
  - unfold all_space. apply Forall_rev.
    eapply Forall_impl; [|apply (find_if_firstn not_space (rev s1))].
    intros a Ha. now apply not_space_false.
  - intros ch t E. apply not_space_true.
    apply (find_if_skipn not_space s) with (t := t ++ rev (firstn g (rev s1))).
    fold f. fold s1. rewrite Hs1 at 1. now rewrite E.
  - intros t ch E. apply not_space_true.
    apply (find_if_skipn not_space (rev s1)) with (t := rev t).
    fold g. rewrite <- (rev_involutive (skipn g (rev s1))), <- Hu, E.
    now rewrite rev_app_distr.
Qed.

(** A text between two runs of whitespace, itself without whitespace at
    either end, is what [trim] returns. *)
Lemma trim_unique (l m r : str) :
  all_space l -> all_space r ->
  (forall ch t, m = ch :: t -> isspace ch = false) ->
  (forall t ch, m = t ++ [ch] -> isspace ch = false) ->
  trim (l ++ m ++ r) = m.
Proof.
  intros Hl Hr Hhead Hlast. rewrite trim_unfold. cbv zeta.
  destruct m as [|x m].
  - simpl app.
    assert (Hall : Forall (fun ch => not_space ch = false) (l ++ r)).
    { apply all_space_not_space, Forall_app. now split. }
    pose proof (find_if_app not_space (l ++ r) [] Hall) as Hf.
    rewrite app_nil_r in Hf. simpl find_if in Hf. rewrite Nat.add_0_r in Hf.
    rewrite Hf, skipn_all. reflexivity.
  - rewrite (skipn_find_if_app not_space l ((x :: m) ++ r)).
    + rewrite rev_app_distr.
      rewrite (skipn_find_if_app not_space (rev r) (rev (x :: m))).
      * apply rev_involutive.
      * apply Forall_rev. now apply all_space_not_space.
      * intros ch t E. unfold not_space.
        rewrite (Hlast (rev t) ch); [reflexivity|].
        rewrite <- (rev_involutive (x :: m)), E. reflexivity.
    + now apply all_space_not_space.
    + intros ch t E. injection E as <- _. unfold not_space.
      now rewrite (Hhead x m eq_refl).
Qed.

(** X8. [trim s] is empty exactly when [s] is whitespace only (the case in which
    [main] reports that the table has no title). *)
Theorem trim_empty_iff :
  forall s : str, trim s = [] <-> all_space s.
Proof.
  intros s. split.
  - intros H. destruct (trim_core s) as (l & r & E & Hl & Hr & _).
    rewrite H in E. simpl in E. rewrite E. apply Forall_app. now split.
  - intros H.
    rewrite <- (app_nil_r s). change (s ++ []) with (s ++ [] ++ []).
    apply trim_unique; auto; try constructor.
    + intros ch t E. discriminate E.
    + intros [|? ?] ch E; discriminate E.
Qed.

(** X9. Whitespace added in front of a string or after it does not change what
    [trim] returns. *)
Theorem trim_padding :
  forall l s r : str,
    all_space l -> all_space r -> trim (l ++ s ++ r) = trim s.
Proof.
  intros l s r Hl Hr.
  destruct (trim_core s) as (l' & r' & E & Hl' & Hr' & Hhead & Hlast).
  rewrite E at 1.
  replace (l ++ (l' ++ trim s ++ r') ++ r)
    with ((l ++ l') ++ trim s ++ (r' ++ r))
    by now rewrite <- !app_assoc.
  apply trim_unique; auto; apply Forall_app; now split.
Qed.

Lemma trim_padding_witness :
  all_space (bytes "  ") /\ all_space (bytes " ") /\
  trim (bytes "  " ++ bytes " a b " ++ bytes " ") = trim (bytes " a b ").
Proof.
  assert (Hl : all_space (bytes "  ")) by (repeat constructor).
  assert (Hr : all_space (bytes " ")) by (repeat constructor).
  split; [exact Hl|split; [exact Hr|]].
  exact (trim_padding (bytes "  ") (bytes " a b ") (bytes " ") Hl Hr).
Defined.

(** X10. [trim] returns its argument unchanged exactly when the argument neither
    starts nor ends with a whitespace character; it never makes a string
    longer. *)
Theorem trim_fixed_iff :
  forall s : str,
    (trim s = s <->
     (forall ch t, s = ch :: t -> isspace ch = false) /\
     (forall t ch, s = t ++ [ch] -> isspace ch = false)) /\
    length (trim s) <= length s.
Proof.
  intros s. destruct (trim_core s) as (l & r & E & _ & _ & Hhead & Hlast).
  split.
  - split.
    + intros H. rewrite H in Hhead, Hlast. now split.
    + intros [H1 H2]. now apply trim_fixed.
  - rewrite E at 2. rewrite !length_app. lia.
Qed.

(* ------------------------------------------------------------------ *)
(** ** More on extraction *)

Lemma line_record_nil : line_record [] = None.
Proof. reflexivity. Qed.

Lemma getlines_records_app (t1 t2 : str) :
  forall line,
    concat (map (fun l => match line_record l with
                          | Some r => [r]
                          | None => []
                          end) (getlines line (t1 ++ newline :: t2)))
    = concat (map (fun l => match line_record l with
                            | Some r => [r]
                            | None => []
                            end) (getlines line t1))
      ++ concat (map (fun l => match line_record l with
                               | Some r => [r]
                               | None => []
                               end) (getlines [] t2)).
Proof.
  induction t1 as [|ch t1 IH]; intros line.
  - simpl app. change (getlines line (newline :: t2))
      with (line :: getlines [] t2).
    destruct line as [|x line]; cbn [getlines map concat app].
    + now rewrite line_record_nil.
    + now rewrite app_nil_r.
  - cbn [app getlines]. destruct (Ascii.eqb ch "010").
    + cbn [map concat]. now rewrite IH, app_assoc.
    + apply IH.
Qed.

(** X11. Extraction works line by line: the records of two texts joined by a
    newline are the records of the first followed by those of the second. *)
Theorem extractTableInfo_newline :
  forall t1 t2 : str,
    extractTableInfo (t1 ++ newline :: t2)
    = extractTableInfo t1 ++ extractTableInfo t2.
Proof.
  intros t1 t2. rewrite !extractTableInfo_lines. apply getlines_records_app.
Qed.

Lemma take_while_keeps_stop (p q : ascii -> bool) (s : str) :
  stops p s -> stops p (take_while q s).
Proof.
  intros H. destruct s as [|x s]; [apply stops_nil|].
  simpl. destruct (q x); [|apply stops_nil].
  apply stops_cons. exact (H x s eq_refl).
Qed.

Lemma title_text_shape (rest : str) :
  all_in cls_any (title_text rest) /\ stops cls_space (title_text rest).
Proof.
  unfold title_text, title_of.
  destruct (take_while cls_space rest) as [|x a']; [split; [constructor|apply stops_nil]|].
  destruct (drop_while not_space (drop_while cls_space rest)) as [|z s2].
  - destruct a' as [|y a'']; [split; [constructor|apply stops_nil]|].
    split; [apply take_while_all|].
    apply take_while_keeps_stop, drop_while_stops.
  - split; [apply take_while_all|].
    apply take_while_keeps_stop, drop_while_stops.
Qed.

Lemma extractTableInfo_in_inv (text : str) (r : TableInfo) :
  In r (extractTableInfo text) ->
  exists line, In line (getlines [] text) /\ line_record line = Some r.
Proof.
  rewrite extractTableInfo_lines. intros H.
  apply in_concat in H as (l & Hl & Hr).
  apply in_map_iff in Hl as (line & <- & Hline).
  exists line. split; [assumption|].
  destruct (line_record line) as [r'|]; [|contradiction].
  destruct Hr as [<-|[]]. reflexivity.
Qed.

Lemma cls_any_spec (ch : ascii) :
  cls_any ch = true <-> ch <> "010"%char /\ ch <> "013"%char.
Proof.
  unfold cls_any. rewrite negb_true_iff, orb_false_iff.
  now rewrite !Ascii.eqb_neq.
Qed.

(** X12. The title of an extracted record holds no line terminator and does not
    start with whitespace, so [trim] can only cut whitespace off its end. *)
Theorem extracted_title_shape :
  forall (text : str) (r : TableInfo),
    In r (extractTableInfo text) ->
    Forall (fun ch => ch <> "010"%char /\ ch <> "013"%char) (title r) /\
    (forall ch t, title r = ch :: t -> isspace ch = false) /\
    exists w, all_space w /\ title r = trim (title r) ++ w.
Proof.
  intros text r Hin.
  apply extractTableInfo_in_inv in Hin as (line & _ & Hr).
  apply line_record_some in Hr as (pre & ws & rest & _ & _ & _ & _ & _ & Ht).
  destruct (title_text_shape rest) as [Hany Hstop]. rewrite <- Ht in *.
  split; [|split].
  - eapply Forall_impl; [|exact Hany]. intros ch. apply cls_any_spec.
  - exact Hstop.
  - destruct (trim_core (title r)) as (l & w & E & Hl & Hw & _).
    exists w. split; [assumption|].
    destruct l as [|x l]; [exact E|].
    apply Forall_inv in Hl. simpl in E.
    specialize (Hstop x _ E). unfold cls_space in Hstop. congruence.
Qed.

Lemma extracted_title_shape_witness :
  In (mkTableInfo (bytes "2") (bytes "Состав  "))
    (extractTableInfo (bytes "Таблица 2 - Состав  ")) /\
  Forall (fun ch => ch <> "010"%char /\ ch <> "013"%char) (bytes "Состав  ") /\
  (forall ch t, bytes "Состав  " = ch :: t -> isspace ch = false) /\
  exists w, all_space w /\ bytes "Состав  " = trim (bytes "Состав  ") ++ w.
Proof.
  assert (H : In (mkTableInfo (bytes "2") (bytes "Состав  "))
                (extractTableInfo (bytes "Таблица 2 - Состав  ")))
    by (left; vm_compute; reflexivity).
  split; [exact H|].
  exact (extracted_title_shape _ _ H).
Defined.

Lemma occurs_prefix (w s : str) (n : nat) :
  occurs w (firstn n s) = false ->
  forall p q, s = p ++ w ++ q -> n < length p + length w.
Proof.
  intros H p q ->.
  destruct (Nat.lt_ge_cases n (length p + length w)) as [Hlt|Hge]; [assumption|].
  exfalso.
  assert (E : firstn n (p ++ w ++ q)
              = p ++ w ++ firstn (n - length p - length w) q).
  { rewrite firstn_app, (firstn_all2 p) by lia.
    rewrite firstn_app, (firstn_all2 w) by lia. reflexivity. }
  rewrite E, occurs_app in H. discriminate H.
Qed.

(** X13. What stands in a line before its first marker word plays no part in the
    record of the line. *)
Theorem scan_line_before_marker :
  forall (tables : list TableInfo) (pre t : str),
    (forall p q, pre ++ t = p ++ marker ++ q -> length pre <= length p) ->
    scan_line tables (pre ++ t) = scan_line tables t.
Proof.
  intros tables pre t H. rewrite !scan_line_record. unfold line_record.
  now rewrite (first_caption_skip pre t H).
Qed.

Lemma scan_line_before_marker_witness :
  scan_line [] (bytes "см. " ++ bytes "Таблица 2.2  Итог Таблица 3")
  = scan_line [] (bytes "Таблица 2.2  Итог Таблица 3").
Proof.
  apply scan_line_before_marker.
  intros p q E.
  assert (Ho : occurs marker
                 (firstn 19 (bytes "см. " ++ bytes "Таблица 2.2  Итог Таблица 3"))
               = false) by (vm_compute; reflexivity).
  pose proof (occurs_prefix marker _ 19 Ho p q E) as H.
  change (length (bytes "см. ")) with 6.
  change (length marker) with 14 in H. lia.
Defined.

(* ------------------------------------------------------------------ *)
(** ** The extractor of the variants *)

(** A loop that succeeds has matched a run of its class and handed the rest
    to its continuation. *)
Lemma repeat_sound (cls : ascii -> bool) (greedy : bool)
    (k : str -> option smatch) (m : smatch) (s : str) :
  forall min,
    repeatMatcher cls greedy k min s = Some m ->
    exists u v, s = u ++ v /\ all_in cls u /\ min <= length u /\ k v = Some m.
Proof.
  induction s as [|x s IH]; intros min H.
  - destruct min as [|min]; [|discriminate H].
    exists [], []. repeat split; [constructor|lia|].
    simpl in H. destruct greedy; [exact H|].
    destruct (k []); [exact H | discriminate H].
  - assert (Hnext : forall n,
              cls x = true -> repeatMatcher cls greedy k n s = Some m ->
              exists u v, x :: s = u ++ v /\ all_in cls u /\
                          S n <= length u /\ k v = Some m).
    { intros n Hx Hn. destruct (IH n Hn) as (u & v & -> & Hu & Hlen & Hk).
      exists (x :: u), v. repeat split; auto; [now constructor | simpl; lia]. }
    assert (Hstop : k (x :: s) = Some m ->
              exists u v, x :: s = u ++ v /\ all_in cls u /\
                          0 <= length u /\ k v = Some m).
    { intros Hk. exists [], (x :: s). repeat split; auto; constructor. }
    destruct min as [|min]; simpl in H.
    + destruct greedy.
      * destruct (cls x) eqn:Hx; [|now apply Hstop].
        destruct (repeatMatcher cls true k 0 s) eqn:E; [|now apply Hstop].
        injection H as ->.
        destruct (Hnext 0 eq_refl E) as (u & v & ? & ? & ? & ?).
        exists u, v. repeat split; auto. lia.
      * destruct (k (x :: s)) eqn:Ek; [injection H as ->; now apply Hstop|].
        destruct (cls x) eqn:Hx; [|discriminate H].
        destruct (Hnext 0 eq_refl H) as (u & v & ? & ? & ? & ?).
        exists u, v. repeat split; auto. lia.
    + destruct (cls x) eqn:Hx; [|discriminate H].
      now apply Hnext.
Qed.

(** A match of the variants' pattern at the start of [s], taken apart. *)
Lemma variant_match_sound (s : str) (kf : str -> smatch -> option smatch)
    (m : smatch) :
  matcher (Group 0 Variant0.tablePattern) s no_match kf = Some m ->
  exists ws tok a b c t rest,
    s = marker ++ ws ++ tok ++ a ++ b ++ c ++ t ++ rest /\
    ws <> [] /\ all_in cls_space ws /\
    tok <> [] /\ all_in cls_digit_dot tok /\
    t <> [] /\ all_in cls_any t /\
    kf rest
      (set_group 0 (marker ++ ws ++ tok ++ a ++ b ++ c ++ t)
         (set_group 2 t (set_group 1 tok no_match))) = Some m.
Proof.
  unfold Variant0.tablePattern. cbn [matcher]. intros H.
  destruct (matchChars marker s) as [s1|] eqn:Em; [|discriminate H].
  apply matchChars_sound in Em.
  apply repeat_sound in H as (ws & s2 & -> & Hws & Hlws & H).
  apply repeat_sound in H as (tok & s3 & -> & Htok & Hltok & H).
  apply repeat_sound in H as (a & s4 & -> & Ha & _ & H).
  apply repeat_sound in H as (b & s5 & -> & Hb & _ & H).
  apply repeat_sound in H as (c & s6 & -> & Hc & _ & H).
  apply repeat_sound in H as (t & rest & -> & Ht & Hlt & H).
  exists ws, tok, a, b, c, t, rest.
  rewrite !firstn_app_sub in H.
  assert (E : firstn (length s - length rest) s
              = marker ++ ws ++ tok ++ a ++ b ++ c ++ t).
  { rewrite Em.
    replace (marker ++ ws ++ tok ++ a ++ b ++ c ++ t ++ rest)
      with ((marker ++ ws ++ tok ++ a ++ b ++ c ++ t) ++ rest)
      by now rewrite <- !app_assoc.
    apply firstn_app_sub. }
  rewrite E in H.
  repeat split; auto.
  - intros ->. simpl in Hlws. lia.
  - intros ->. simpl in Hltok. lia.
  - intros ->. simpl in Hlt. lia.
Qed.

Lemma match_here_sound (not_null : bool) (s : str) (m : smatch) :
  match_here Variant0.tablePattern not_null s = Some m ->
  exists ws tok a b c t rest,
    s = marker ++ ws ++ tok ++ a ++ b ++ c ++ t ++ rest /\
    ws <> [] /\ all_in cls_space ws /\
    tok <> [] /\ all_in cls_digit_dot tok /\
    t <> [] /\ all_in cls_any t /\
    m 0 = Some (marker ++ ws ++ tok ++ a ++ b ++ c ++ t) /\
    m 1 = Some tok /\ m 2 = Some t.
Proof.
  unfold match_here. intros H.
  apply variant_match_sound in H
    as (ws & tok & a & b & c & t & rest & E & H1 & H2 & H3 & H4 & H5 & H6 & H).
  exists ws, tok, a, b, c, t, rest.
  destruct (not_null && (length rest =? length s)); [discriminate H|].
  injection H as <-. repeat split; auto.
Qed.

(** Every match of the iteration is a match at some place of the text. *)
Lemma regex_iterate_in (r : regex) (s : str) :
  forall skip m,
    In m (regex_iterate r s skip) ->
    exists pre t not_null, s = pre ++ t /\ match_here r not_null t = Some m.
Proof.
  induction s as [|x s IH]; intros skip m H.
  - destruct skip as [|skip]; [|destruct H].
    simpl in H. destruct (match_here r false []) eqn:E; [|destruct H].
    destruct H as [<-|[]]. now exists [], [], false.
  - assert (Hlater : forall n, In m (regex_iterate r s n) ->
              exists pre t not_null,
                x :: s = pre ++ t /\ match_here r not_null t = Some m).
    { intros n Hn. destruct (IH n m Hn) as (pre & t & nn & -> & Ht).
      now exists (x :: pre), t, nn. }
    destruct skip as [|skip]; [|now apply (Hlater skip)].
    cbn [regex_iterate] in H.
    destruct (match_here r false (x :: s)) as [m0|] eqn:E;
      [|now apply (Hlater 0)].
    destruct H as [<-|H]; [now exists [], (x :: s), false|].
    destruct (length (match_str m0 0)); [|now apply (Hlater n)].
    destruct (match_here r true (x :: s)) as [m1|] eqn:E1;
      [|now apply (Hlater 0)].
    destruct H as [<-|H]; [now exists [], (x :: s), true|].
    now apply (Hlater (length (match_str m1 0) - 1)).
Qed.

Lemma fold_add_match (ms : list smatch) :
  forall tables,
    fold_left Variant0.add_match ms tables
    = tables ++ map (fun m => mkTableInfo (match_str m 1) (match_str m 2)) ms.
Proof.
  induction ms as [|m ms IH]; intros tables; simpl.
  - now rewrite app_nil_r.
  - rewrite IH. unfold Variant0.add_match, push_back.
    now rewrite <- app_assoc.
Qed.

Lemma variants_same_extractor (text : str) :
  Variant1.extractTableInfo text = Variant0.extractTableInfo text.
Proof. reflexivity. Qed.

Lemma variant_record_in (text : str) (r : TableInfo) :
  In r (Variant0.extractTableInfo text) ->
  exists pre t not_null m,
    text = pre ++ t /\
    match_here Variant0.tablePattern not_null t = Some m /\
    r = mkTableInfo (match_str m 1) (match_str m 2).
Proof.
  unfold Variant0.extractTableInfo. rewrite fold_add_match. simpl.
  intros H. apply in_map_iff in H as (m & <- & Hm).
  apply regex_iterate_in in Hm as (pre & t & nn & -> & Ht).
  now exists pre, t, nn, m.
Qed.

(** X14. Every record that the extractor of a variant returns has a non-empty
    identifier of digits and periods and a non-empty title without line
    terminator, and it comes from a place of the text where the marker word
    stands, followed by whitespace and the identifier. *)
Theorem variant_records_shape :
  forall (text : str) (r : TableInfo),
    In r (Variant0.extractTableInfo text) \/
    In r (Variant1.extractTableInfo text) ->
    identifier_token (number r) /\
    title r <> [] /\
    Forall (fun ch => ch <> "010"%char /\ ch <> "013"%char) (title r) /\
    exists pre ws post,
      text = pre ++ marker ++ ws ++ number r ++ post /\
      ws <> [] /\ all_space ws.
Proof.
  intros text r H.
  assert (H0 : In r (Variant0.extractTableInfo text)) by now destruct H.
  apply variant_record_in in H0 as (pre & s & nn & m & -> & Hm & ->).
  apply match_here_sound in Hm
    as (ws & tok & a & b & c & t & rest & -> & Hws0 & Hws & Htok0 & Htok
        & Ht0 & Ht & _ & H1 & H2).
  unfold match_str. rewrite H1, H2. simpl.
  split; [split; [assumption | now apply digit_dot_token]|].
  split; [assumption|]. split.
  - eapply Forall_impl; [|exact Ht]. intros ch. apply cls_any_spec.
  - now exists pre, ws, (a ++ b ++ c ++ t ++ rest).
Qed.

Lemma variant_records_shape_witness :
  (In (mkTableInfo (bytes "5") (bytes "bar baz"))
     (Variant0.extractTableInfo (bytes "Таблица 5
foo bar baz")) \/
   In (mkTableInfo (bytes "5") (bytes "bar baz"))
     (Variant1.extractTableInfo (bytes "Таблица 5
foo bar baz"))) /\
  identifier_token (bytes "5") /\
  bytes "bar baz" <> [] /\
  Forall (fun ch => ch <> "010"%char /\ ch <> "013"%char) (bytes "bar baz") /\
  exists pre ws post,
    bytes "Таблица 5
foo bar baz" = pre ++ marker ++ ws ++ bytes "5" ++ post /\
    ws <> [] /\ all_space ws.
Proof.
  assert (H : In (mkTableInfo (bytes "5") (bytes "bar baz"))
                (Variant0.extractTableInfo (bytes "Таблица 5
foo bar baz")) \/
              In (mkTableInfo (bytes "5") (bytes "bar baz"))
                (Variant1.extractTableInfo (bytes "Таблица 5
foo bar baz")))
    by (left; left; vm_compute; reflexivity).
  split; [exact H|].
  exact (variant_records_shape _ _ H).
Defined.

(** X15. A text in which the marker word does not occur gives no record in the
    variants. *)
Theorem variant_no_marker :
  forall text : str,
    ~ contains_marker text ->
    Variant0.extractTableInfo text = [] /\ Variant1.extractTableInfo text = [].
Proof.
  intros text H.
  assert (E : Variant0.extractTableInfo text = []).
  { destruct (Variant0.extractTableInfo text) as [|r l] eqn:E; [reflexivity|].
    exfalso. apply H.
    assert (Hin : In r (Variant0.extractTableInfo text))
      by (rewrite E; now left).
    apply variant_record_in in Hin as (pre & s & nn & m & -> & Hm & _).
    apply match_here_sound in Hm
      as (ws & tok & a & b & c & t & rest & -> & _).
    now exists pre, (ws ++ tok ++ a ++ b ++ c ++ t ++ rest). }
  split; [exact E|]. now rewrite <- E.
Qed.

Lemma variant_no_marker_witness :
  ~ contains_marker (bytes "Table 1 - Parameters") /\
  Variant0.extractTableInfo (bytes "Table 1 - Parameters") = [] /\
  Variant1.extractTableInfo (bytes "Table 1 - Parameters") = [].
Proof.
  assert (H : ~ contains_marker (bytes "Table 1 - Parameters"))
    by (apply occurs_marker; vm_compute; reflexivity).
  split; [exact H|]. exact (variant_no_marker _ H).
Defined.

(* ------------------------------------------------------------------ *)
(** ** The variants and [GetTable.cpp] on a one-line text *)

Lemma first_caption_min (s : str) (c : str * option str) :
  first_caption s = Some c ->
  exists pre t,
    s = pre ++ t /\ caption_at t = Some c /\
    (forall p1 x q1, pre = p1 ++ x :: q1 -> caption_at (x :: q1 ++ t) = None).
Proof.
  induction s as [|x s IH].
  - discriminate.
  - rewrite first_caption_cons.
    destruct (caption_at (x :: s)) eqn:E; intros H.
    + exists [], (x :: s). rewrite E. repeat split; auto.
      intros [|? ?] ? ? Hp; discriminate Hp.
    + destruct (IH H) as (pre & t & -> & Ht & Hmin).
      exists (x :: pre), t. repeat split; auto.
      intros [|y p1] z q1 Hp; injection Hp as -> ->.
      * exact E.
      * now apply (Hmin p1 z q1).
Qed.

Lemma variant_none_of_caption_none (not_null : bool) (s : str) :
  caption_at s = None -> match_here Variant0.tablePattern not_null s = None.
Proof.
  intros H. destruct (match_here _ not_null s) as [m|] eqn:E; [|reflexivity].
  apply match_here_sound in E
    as (ws & tok & a & b & c & t & rest & -> & Hws0 & Hws & Htok0 & Htok & _).
  exfalso. now apply (caption_at_is_some ws tok (a ++ b ++ c ++ t ++ rest)).
Qed.

Lemma regex_iterate_skip_prefix (r : regex) (pre t : str) :
  (forall p1 x q1, pre = p1 ++ x :: q1 ->
                   match_here r false (x :: q1 ++ t) = None) ->
  regex_iterate r (pre ++ t) 0 = regex_iterate r t 0.
Proof.
  induction pre as [|x pre IH]; intros H; [reflexivity|].
  cbn [app regex_iterate]. rewrite (H [] x pre eq_refl).
  apply IH. intros p1 y q1 E. apply (H (x :: p1) y q1). now rewrite E.
Qed.

Lemma regex_iterate_skip_all (r : regex) (s : str) :
  match_here r false [] = None ->
  forall n, length s <= n -> regex_iterate r s n = [].
Proof.
  intros Hr. induction s as [|x s IH]; intros n Hn.
  - destruct n; cbn [regex_iterate]; [now rewrite Hr | reflexivity].
  - destruct n as [|n]; simpl in Hn; [lia|].
    cbn [regex_iterate]. apply IH. lia.
Qed.

Lemma regex_iterate_whole (r : regex) (s : str) (m : smatch) :
  match_here r false [] = None ->
  match_here r false s = Some m ->
  length (match_str m 0) = length s ->
  regex_iterate r s 0 = [m].
Proof.
  intros Hr Hm Hlen. destruct s as [|x s].
  - rewrite Hr in Hm. discriminate Hm.
  - cbn [regex_iterate]. rewrite Hm, Hlen. simpl length. cbv beta iota.
    now rewrite (regex_iterate_skip_all r s Hr (length s) (le_n _)).
Qed.

Lemma getlines_one_line (s : str) :
  forall line,
    ~ In newline s -> line ++ s <> [] -> getlines line s = [line ++ s].
Proof.
  induction s as [|ch s IH]; intros line Hs Hne; simpl.
  - rewrite app_nil_r in *. destruct line; [contradiction | reflexivity].
  - destruct (Ascii.eqb ch "010") eqn:E.
    + apply Ascii.eqb_eq in E. exfalso. apply Hs. now left.
    + unfold push_back. rewrite IH.
      * now rewrite <- app_assoc.
      * intros Hin. apply Hs. now right.
      * destruct line; discriminate.
Qed.

(** The two shapes of a text on which the optional part of the pattern of
    [GetTable.cpp] matches. *)
Lemma title_of_cases (rest t s' : str) :
  title_of rest = Some (t, s') ->
  (exists a word c s3,
      rest = a ++ word ++ c ++ s3 /\
      a <> [] /\ all_in cls_space a /\
      word <> [] /\ all_in not_space word /\
      c <> [] /\ all_in cls_space c /\
      stops cls_space s3 /\
      t = take_while cls_any s3 /\ s' = drop_while cls_any s3) \/
  (exists a x word,
      rest = a ++ x :: word /\
      a <> [] /\ all_in cls_space a /\ cls_space x = true /\
      all_in not_space word /\
      t = take_while cls_any word /\ s' = drop_while cls_any word).
Proof.
  unfold title_of.
  pose proof (take_drop cls_space rest) as Es.
  pose proof (take_while_all cls_space rest) as Ha.
  pose proof (drop_while_stops cls_space rest) as Hs1.
  remember (drop_while cls_space rest) as s1 eqn:Rs1.
  destruct (take_while cls_space rest) as [|x a']; [discriminate|].
  pose proof (take_drop not_space s1) as E1.
  pose proof (take_while_all not_space s1) as Hb.
  pose proof (drop_while_stops not_space s1) as Hs2.
  remember (take_while not_space s1) as b eqn:Rb.
  destruct (drop_while not_space s1) as [|z s2'].
  - destruct a' as [|y a'']; [discriminate|].
    intros H. injection H as <- <-. right.
    rewrite app_nil_r in E1. subst b. rewrite E1 in Hb.
    destruct (@exists_last _ (x :: y :: a'')) as (a0 & ch & Ea); [discriminate|].
    rewrite Ea in Es, Ha. rewrite <- app_assoc in Es. simpl in Es.
    apply Forall_app in Ha as [Ha0 Hch]. apply Forall_inv in Hch.
    exists a0, ch, s1. repeat split; auto.
    destruct a0; [discriminate Ea | discriminate].
  - intros H. injection H as <- <-. left.
    assert (Hz : isspace z = true).
    { apply not_space_false. exact (Hs2 z s2' eq_refl). }
    pose proof (take_drop cls_space (z :: s2')) as E3.
    pose proof (take_while_all cls_space (z :: s2')) as Hw.
    pose proof (drop_while_stops cls_space (z :: s2')) as Hs3.
    remember (drop_while cls_space (z :: s2')) as s3 eqn:Rs3.
    remember (take_while cls_space (z :: s2')) as w eqn:Rw.
    exists (x :: a'), b, w, s3. repeat split; auto.
    + now rewrite E3, E1.
    + discriminate.
    + intros ->. simpl in E1. rewrite <- E1 in Hs1.
      specialize (Hs1 z s2' eq_refl). unfold cls_space in Hs1. congruence.
    + subst w. simpl. unfold cls_space. rewrite Hz. discriminate.
    + subst s3. reflexivity.
    + subst s3. reflexivity.
Qed.

Section VariantTail.

Variable k : str -> smatch -> option smatch.
Hypothesis k_accepts : forall s caps, k s caps <> None.

Lemma variant_capture (s : str) (caps : smatch) :
  stops cls_space s -> s <> [] ->
  matcher (Group 2 (Repeat cls_any 1 true)) s caps k
  = k (drop_while cls_any s) (set_group 2 (take_while cls_any s) caps).
Proof.
  intros Hs Hne. rewrite <- (take_drop cls_any s) at 1.
  apply matcher_group_greedy; auto using take_while_all, drop_while_stops.
  destruct s as [|x s]; [contradiction|]. simpl.
  rewrite (not_space_any x (Hs x s eq_refl)). simpl. lia.
Qed.

Lemma variant_space_capture (w s : str) (caps : smatch) :
  w <> [] -> all_in cls_space w -> stops cls_space s -> s <> [] ->
  matcher (Seq (Repeat cls_space 1 true) (Group 2 (Repeat cls_any 1 true)))
    (w ++ s) caps k
  = k (drop_while cls_any s) (set_group 2 (take_while cls_any s) caps).
Proof.
  intros Hw Hall Hs Hne.
  change (repeatMatcher cls_space true
            (fun s' => matcher (Group 2 (Repeat cls_any 1 true)) s' caps k)
            1 (w ++ s)
          = k (drop_while cls_any s) (set_group 2 (take_while cls_any s) caps)).
  rewrite greedy_whole_run; auto.
  - now apply variant_capture.
  - now rewrite variant_capture.
  - destruct w; simpl; [contradiction | lia].
Qed.

Lemma variant_tail_no_space (s : str) (caps : smatch) :
  all_in not_space s ->
  matcher (Seq (Repeat cls_any 0 false)
            (Seq (Repeat cls_space 1 true) (Group 2 (Repeat cls_any 1 true))))
    s caps k = None.
Proof.
  intros Hs.
  change (repeatMatcher cls_any false
            (fun s' => matcher (Seq (Repeat cls_space 1 true)
                                  (Group 2 (Repeat cls_any 1 true))) s' caps k)
            0 s = None).
  apply repeat_all_refused. intros pre t E.
  apply matcher_space_stops. apply all_not_space_suffix with (pre := pre).
  now rewrite <- E.
Qed.

(** Whitespace, a word, whitespace and a text: the capture is the text. *)
Lemma variant_tail_word (a b w s : str) (caps : smatch) :
  a <> [] -> all_in cls_space a ->
  b <> [] -> all_in not_space b ->
  w <> [] -> all_in cls_space w ->
  stops cls_space s -> s <> [] ->
  matcher (Seq (Repeat cls_space 1 true)
            (Seq (Repeat cls_any 0 false)
               (Seq (Repeat cls_space 1 true) (Group 2 (Repeat cls_any 1 true)))))
    (a ++ b ++ w ++ s) caps k
  = k (drop_while cls_any s) (set_group 2 (take_while cls_any s) caps).
Proof.
  intros Ha Hall_a Hb Hall_b Hw Hall_w Hs Hne.
  assert (Htail :
    matcher (Seq (Repeat cls_any 0 false)
              (Seq (Repeat cls_space 1 true) (Group 2 (Repeat cls_any 1 true))))
      (b ++ w ++ s) caps k
    = k (drop_while cls_any s) (set_group 2 (take_while cls_any s) caps)).
  { rewrite matcher_lazy_skip.
    - now apply variant_space_capture.
    - now apply all_not_space_any.
    - intros pre ch t E. apply matcher_space_stops.
      apply stops_cons. apply not_space_true.
      rewrite E in Hall_b. apply Forall_app in Hall_b as [_ H].
      now apply Forall_inv in H.
    - now rewrite variant_space_capture. }
  change (repeatMatcher cls_space true
            (fun s' => matcher (Seq (Repeat cls_any 0 false)
                         (Seq (Repeat cls_space 1 true)
                            (Group 2 (Repeat cls_any 1 true)))) s' caps k)
            1 (a ++ b ++ w ++ s)
          = k (drop_while cls_any s) (set_group 2 (take_while cls_any s) caps)).
  rewrite greedy_whole_run; auto.
  - destruct b as [|x b]; [contradiction|]. simpl.
    apply stops_cons, not_space_true. now apply Forall_inv in Hall_b.
  - now rewrite Htail.
  - destruct a; simpl; [contradiction | lia].
Qed.

(** Whitespace and a last word: one whitespace character is given back. *)
Lemma variant_tail_last_word (a s : str) (ch : ascii) (caps : smatch) :
  a <> [] -> all_in cls_space a -> cls_space ch = true ->
  all_in not_space s -> s <> [] ->
  matcher (Seq (Repeat cls_space 1 true)
            (Seq (Repeat cls_any 0 false)
               (Seq (Repeat cls_space 1 true) (Group 2 (Repeat cls_any 1 true)))))
    (a ++ ch :: s) caps k
  = k (drop_while cls_any s) (set_group 2 (take_while cls_any s) caps).
Proof.
  intros Ha Hall_a Hch Hs Hne.
  assert (Hstop : stops cls_space s)
    by now apply all_not_space_suffix with (pre := []).
  assert (Hcap :
    matcher (Seq (Repeat cls_space 1 true) (Group 2 (Repeat cls_any 1 true)))
      (ch :: s) caps k
    = k (drop_while cls_any s) (set_group 2 (take_while cls_any s) caps)).
  { apply (variant_space_capture [ch]); auto; [discriminate | now constructor]. }
  assert (Hback :
    matcher (Seq (Repeat cls_any 0 false)
              (Seq (Repeat cls_space 1 true) (Group 2 (Repeat cls_any 1 true))))
      (ch :: s) caps k
    = k (drop_while cls_any s) (set_group 2 (take_while cls_any s) caps)).
  { rewrite (matcher_lazy_skip [] (ch :: s)).
    - exact Hcap.
    - constructor.
    - intros [|? ?] ? ? E; discriminate E.
    - now rewrite Hcap. }
  change (repeatMatcher cls_space true
            (fun s' => matcher (Seq (Repeat cls_any 0 false)
                         (Seq (Repeat cls_space 1 true)
                            (Group 2 (Repeat cls_any 1 true)))) s' caps k)
            1 (a ++ ch :: s)
          = k (drop_while cls_any s) (set_group 2 (take_while cls_any s) caps)).
  rewrite greedy_give_back; auto.
  - now apply variant_tail_no_space.
  - now rewrite Hback.
  - destruct a; simpl; [contradiction | lia].
Qed.

(** The marker word, whitespace and the identifier in front of a tail that
    matches. *)
Lemma variant_head (ws tok rest : str) (tail : regex) :
  ws <> [] -> all_in cls_space ws ->
  tok <> [] -> all_in cls_digit_dot tok ->
  stops cls_digit_dot rest ->
  matcher tail rest (set_group 1 tok no_match) k <> None ->
  matcher (Seq (Chars marker)
            (Seq (Repeat cls_space 1 true)
               (Seq (Group 1 (Repeat cls_digit_dot 1 true)) tail)))
    (marker ++ ws ++ tok ++ rest) no_match k
  = matcher tail rest (set_group 1 tok no_match) k.
Proof.
  intros Hws0 Hws Htok0 Htok Hrest Hk.
  assert (Hnum :
    matcher (Seq (Group 1 (Repeat cls_digit_dot 1 true)) tail)
      (tok ++ rest) no_match k
    = matcher tail rest (set_group 1 tok no_match) k).
  { change (matcher (Group 1 (Repeat cls_digit_dot 1 true)) (tok ++ rest)
              no_match (fun s' caps' => matcher tail s' caps' k)
            = matcher tail rest (set_group 1 tok no_match) k).
    rewrite matcher_group_greedy; auto.
    destruct tok; simpl; [contradiction | lia]. }
  change (match matchChars marker (marker ++ ws ++ tok ++ rest) with
          | Some s1 =>
              repeatMatcher cls_space true
                (fun s' => matcher (Seq (Group 1 (Repeat cls_digit_dot 1 true))
                                      tail) s' no_match k) 1 s1
          | None => None
          end = matcher tail rest (set_group 1 tok no_match) k).
  rewrite matchChars_app, greedy_refused_inside; auto.
  - destruct ws; [contradiction|]. exact Hnum.
  - intros ch t Hch. simpl. now rewrite (space_not_digit_dot ch Hch).
  - destruct tok as [|x tok]; [contradiction|]. simpl. apply stops_cons.
    apply Forall_inv in Htok.
    destruct (cls_space x) eqn:E; [|reflexivity].
    apply space_not_digit_dot in E. congruence.
Qed.

End VariantTail.

Lemma drop_while_all (p : ascii -> bool) (s : str) :
  all_in p s -> drop_while p s = [].
Proof.
  intros H. destruct (span_app p s [] H (stops_nil p)) as [_ E].
  now rewrite app_nil_r in E.
Qed.

(** Where [GetTable.cpp] finds a caption with a title, the pattern of the
    variants matches, up to the end of the title. *)
Lemma variant_match_title (ws tok rest t s' : str) :
  ws <> [] -> all_in cls_space ws ->
  tok <> [] -> all_in cls_digit_dot tok ->
  stops cls_digit_dot rest ->
  title_of rest = Some (t, s') -> t <> [] ->
  match_here Variant0.tablePattern false (marker ++ ws ++ tok ++ rest)
  = Some (set_group 0
            (firstn (length (marker ++ ws ++ tok ++ rest) - length s')
               (marker ++ ws ++ tok ++ rest))
            (set_group 2 t (set_group 1 tok no_match))).
Proof.
  intros Hws0 Hws Htok0 Htok Hrest Htitle Ht.
  set (s := marker ++ ws ++ tok ++ rest).
  set (k0 := fun (s1 : str) (caps' : smatch) =>
               Some (set_group 0 (firstn (length s - length s1) s) caps')).
  assert (Hk0 : forall s1 caps, k0 s1 caps <> None) by discriminate.
  assert (Htail :
    matcher (Seq (Repeat cls_space 1 true)
              (Seq (Repeat cls_any 0 false)
                 (Seq (Repeat cls_space 1 true)
                    (Group 2 (Repeat cls_any 1 true)))))
      rest (set_group 1 tok no_match) k0
    = k0 s' (set_group 2 t (set_group 1 tok no_match))).
  { apply title_of_cases in Htitle
      as [(a & word & c & s3 & -> & Ha0 & Ha & Hw0 & Hw & Hc0 & Hc & Hs3 & Et & Es')
         |(a & x & word & -> & Ha0 & Ha & Hx & Hw & Et & Es')];
      rewrite Et, Es'.
    - apply variant_tail_word; auto.
      intros ->. now apply Ht.
    - apply variant_tail_last_word; auto.
      intros ->. now apply Ht. }
  change (match_here Variant0.tablePattern false s)
    with (matcher (Seq (Chars marker)
                    (Seq (Repeat cls_space 1 true)
                       (Seq (Group 1 (Repeat cls_digit_dot 1 true))
                          (Seq (Repeat cls_space 1 true)
                             (Seq (Repeat cls_any 0 false)
                                (Seq (Repeat cls_space 1 true)
                                   (Group 2 (Repeat cls_any 1 true))))))))
            s no_match k0).
  unfold s at 1. rewrite variant_head; auto.
  rewrite Htail. discriminate.
Qed.

(** X16. On a text without line terminator from which [GetTable.cpp] extracts one
    record with a non-empty title, the extractors of the variants return
    that same record and nothing else. *)
Theorem variants_agree_on_titled_line :
  forall (text : str) (r : TableInfo),
    Forall (fun ch => ch <> "010"%char /\ ch <> "013"%char) text ->
    extractTableInfo text = [r] ->
    title r <> [] ->
    Variant0.extractTableInfo text = [r] /\
    Variant1.extractTableInfo text = [r].
Proof.
  intros text r Hterm Hex Htitle.
  assert (E : Variant0.extractTableInfo text = [r]); [|now split].
  assert (Hany : all_in cls_any text).
  { eapply Forall_impl; [|exact Hterm]. intros ch. apply cls_any_spec. }
  assert (Hnl : ~ In newline text).
  { intros Hin. unfold all_in in Hany. rewrite Forall_forall in Hany.
    specialize (Hany _ Hin). discriminate Hany. }
  assert (Hne : [] ++ text <> []).
  { simpl. intros ->. discriminate Hex. }
  rewrite extractTableInfo_lines, (getlines_one_line text [] Hnl Hne) in Hex.
  cbn [app map concat] in Hex. unfold line_record in Hex.
  destruct (first_caption text) as [[tok ot]|] eqn:Ef; [|discriminate Hex].
  apply first_caption_min in Ef as (pre & s & -> & Hcap & Hmin).
  apply caption_at_some in Hcap
    as (ws & rest & -> & Hws0 & Hws & Htok0 & Htok & Hrest & Hot).
  destruct (title_of rest) as [[t s']|] eqn:Et; simpl in Hot; subst ot.
  2:{ injection Hex as <-. now contradiction Htitle. }
  rewrite app_nil_r in Hex. injection Hex as <-. simpl in Htitle.
  assert (Hs' : s' = []).
  { destruct s' as [|x s']; [reflexivity|]. exfalso.
    assert (Hx : cls_any x = false).
    { apply title_of_cases in Et
        as [(a & word & c & s3 & _ & _ & _ & _ & _ & _ & _ & _ & _ & Es')
           |(a & y & word & _ & _ & _ & _ & _ & _ & Es')];
        eapply drop_while_stops; symmetry; exact Es'. }
    assert (Hin : In x (pre ++ marker ++ ws ++ tok ++ rest)).
    { apply title_of_cases in Et
        as [(a & word & c & s3 & -> & _ & _ & _ & _ & _ & _ & _ & _ & Es')
           |(a & y & word & -> & _ & _ & _ & _ & _ & Es')].
      - rewrite <- (take_drop cls_any s3), <- Es'.
        repeat (apply in_or_app; right). now left.
      - rewrite <- (take_drop cls_any word), <- Es'.
        repeat (apply in_or_app; right). right.
        apply in_or_app. right. now left. }
    unfold all_in in Hany. rewrite Forall_forall in Hany.
    specialize (Hany _ Hin). congruence. }
  subst s'.
  pose proof (variant_match_title ws tok rest t [] Hws0 Hws Htok0 Htok Hrest
                Et Htitle) as Hm.
  simpl length in Hm at 2. rewrite Nat.sub_0_r, firstn_all in Hm.
  unfold Variant0.extractTableInfo.
  rewrite regex_iterate_skip_prefix.
  - assert (Hend : match_here Variant0.tablePattern false [] = None)
      by reflexivity.
    rewrite (regex_iterate_whole _ _ _ Hend Hm); reflexivity.
  - intros p1 x q1 Ep. apply variant_none_of_caption_none.
    now apply (Hmin p1 x q1).
Qed.

Lemma variants_agree_on_titled_line_witness :
  Forall (fun ch => ch <> "010"%char /\ ch <> "013"%char)
    (bytes "Таблица 1 - Общие сведения") /\
  extractTableInfo (bytes "Таблица 1 - Общие сведения")
  = [mkTableInfo (bytes "1") (bytes "Общие сведения")] /\
  Variant0.extractTableInfo (bytes "Таблица 1 - Общие сведения")
  = [mkTableInfo (bytes "1") (bytes "Общие сведения")] /\
  Variant1.extractTableInfo (bytes "Таблица 1 - Общие сведения")
  = [mkTableInfo (bytes "1") (bytes "Общие сведения")].
Proof.
  assert (H1 : Forall (fun ch => ch <> "010"%char /\ ch <> "013"%char)
                 (bytes "Таблица 1 - Общие сведения"))
    by (repeat constructor; discriminate).
  assert (H2 : extractTableInfo (bytes "Таблица 1 - Общие сведения")
               = [mkTableInfo (bytes "1") (bytes "Общие сведения")])
    by (vm_compute; reflexivity).
  split; [exact H1|split; [exact H2|]].
  apply (variants_agree_on_titled_line _ _ H1 H2). discriminate.
Defined.

(* ------------------------------------------------------------------ *)
(** ** The whole program *)

Lemma getlines_part (ss : str) :
  forall acc line,
    In line (getlines acc ss) -> exists p q, acc ++ ss = p ++ line ++ q.
Proof.
  induction ss as [|ch ss IH]; intros acc line H; simpl in H.
  - destruct acc as [|x acc]; [destruct H|].
    destruct H as [<-|[]]. exists [], []. now rewrite !app_nil_r.
  - destruct (Ascii.eqb ch "010") eqn:E.
    + destruct H as [<-|H]; [now exists [], (ch :: ss)|].
      destruct (IH [] line H) as (p & q & Epq). simpl in Epq.
      exists (acc ++ ch :: p), q. rewrite Epq, <- app_assoc. reflexivity.
    + destruct (IH _ line H) as (p & q & Epq).
      exists p, q. rewrite <- Epq. unfold push_back.
      now rewrite <- app_assoc.
Qed.

Lemma extractTableInfo_no_marker (text : str) :
  ~ contains_marker text -> extractTableInfo text = [].
Proof.
  intros H. rewrite extractTableInfo_lines.
  assert (Hlines : forall line, In line (getlines [] text) ->
                                line_record line = None).
  { intros line Hin. destruct (line_record line) eqn:E; [|reflexivity].
    exfalso. apply H.
    assert (Hc : is_caption line) by (apply line_record_caption; now rewrite E).
    apply is_caption_contains_marker in Hc as (p1 & q1 & ->).
    apply getlines_part in Hin as (p & q & Epq). simpl in Epq.
    exists (p ++ p1), (q1 ++ q). rewrite Epq, <- !app_assoc. reflexivity. }
  induction (getlines [] text) as [|line lines IH]; [reflexivity|].
  simpl. rewrite (Hlines line) by now left.
  apply IH. intros l Hl. apply Hlines. now right.
Qed.

Lemma replace_no_marker (text : str) :
  ~ contains_marker text ->
  ~ contains_marker (replace text "|"%char "1"%char).
Proof.
  intros H (p & q & E).
  apply replace_marker_occurrence in E as (p' & q' & -> & _).
  apply H. now exists p', q'.
Qed.

(** X18. When the image is loaded and the engine starts, and the marker word does
    not occur in the recognised text, the program writes the closing prompt
    and nothing else, and returns 0. *)
Theorem main_without_captions :
  forall outText : str,
    ~ contains_marker outText ->
    main false false outText
    = mkRun (bytes "Нажмите Enter, чтобы выйти...") [] 0.
Proof.
  intros outText H. unfold main, recognise. cbv zeta.
  now rewrite (extractTableInfo_no_marker _ (replace_no_marker _ H)).
Qed.

Lemma main_without_captions_witness :
  ~ contains_marker (bytes "Tab|e 1 - Parameters") /\
  main false false (bytes "Tab|e 1 - Parameters")
  = mkRun (bytes "Нажмите Enter, чтобы выйти...") [] 0.
Proof.
  assert (H : ~ contains_marker (bytes "Tab|e 1 - Parameters"))
    by (apply occurs_marker; vm_compute; reflexivity).
  split; [exact H|]. exact (main_without_captions _ H).
Defined.

Lemma print_misordered_length (out : str) (l : list str) :
  l <> [] -> length out < length (print_misordered out l).
Proof.
  destruct l as [|x l]; [contradiction|]. intros _.
  unfold print_misordered.
  assert (Hfold : forall (l : list str) (o : str),
            length o <= length (fold_left (fun o number => o ++ number ++ bytes " ")
                                  l o)).
  { clear. induction l as [|y l IH]; intros o; simpl; [lia|].
    eapply Nat.le_trans; [|apply IH]. rewrite !length_app. lia. }
  rewrite length_app.
  specialize (Hfold (x :: l)
                (out ++ endl ++ bytes "Неправильно пронумерованы таблицы: ")).
  rewrite !length_app in Hfold. simpl length in *. lia.
Qed.

(** X19. In a run that gets to the recognised text, the line about wrongly
    numbered tables is left out exactly when "0" and the identifiers of the
    extracted tables are strictly increasing for the string order: then, and
    only then, the table blocks are followed by the closing prompt at once. *)
Theorem main_reports_misordered :
  forall outText : str,
    let tables := extractTableInfo (replace outText "|"%char "1"%char) in
    cout (main false false outText)
    = fold_left print_table tables [] ++ bytes "Нажмите Enter, чтобы выйти..."
    <->
    StronglySorted lt_string (bytes "0" :: map number tables).
Proof.
  intros outText tables.
  rewrite <- validator_silent.
  unfold main, recognise. cbv zeta. fold tables. cbn [cout].
  split.
  - intros H. apply app_inv_tail in H.
    destruct (findMisorderedTables tables) as [|x l] eqn:E; [reflexivity|].
    exfalso.
    pose proof (print_misordered_length (fold_left print_table tables [])
                  (x :: l)) as Hlen.
    rewrite H in Hlen. specialize (Hlen ltac:(discriminate)). lia.
  - intros ->. reflexivity.
Qed.

Lemma pipe_to_one_twice (ch : ascii) :
  pipe_to_one (pipe_to_one ch) = pipe_to_one ch.
Proof.
  unfold pipe_to_one. destruct (Ascii.eqb ch "|"%char) eqn:E; [reflexivity|].
  now rewrite E.
Qed.

(** X20. Replacing the pipes a second time changes nothing: a text that went
    through the replacement gives the same tables and the same anomalies as
    the text it came from. *)
Theorem recognise_replaced :
  forall outText : str,
    replace (replace outText "|"%char "1"%char) "|"%char "1"%char
    = replace outText "|"%char "1"%char /\
    recognise (replace outText "|"%char "1"%char) = recognise outText.
Proof.
  intros outText.
  assert (E : replace (replace outText "|"%char "1"%char) "|"%char "1"%char
              = replace outText "|"%char "1"%char).
  { unfold replace. rewrite map_map. apply map_ext. apply pipe_to_one_twice. }
  split; [exact E|]. unfold recognise. now rewrite E.
Qed.

(* ------------------------------------------------------------------ *)
(** ** The order validator of the variants *)

Lemma predecessor_fold_nil (tables : list TableInfo) :
  forall cur,
    predecessor_fold cur tables = [] <-> reference_fold cur tables = [].
Proof.
  induction tables as [|t tables IH]; intros cur; simpl; [tauto|].
  destruct (string_le (number t) cur); simpl; [split; discriminate|].
  apply IH.
Qed.

Lemma predecessor_fold_shape (tables : list TableInfo) :
  forall cur,
    length (predecessor_fold cur tables) <= length tables /\
    (forall e, In e (predecessor_fold cur tables) ->
               e = cur \/ In e (map number (removelast tables))).
Proof.
  induction tables as [|t tables IH]; intros cur.
  - split; [simpl; lia | intros e []].
  - destruct (IH (number t)) as [Hlen Hin].
    assert (Hrest : forall e, In e (predecessor_fold (number t) tables) ->
                      In e (map number (removelast (t :: tables)))).
    { intros e He. destruct tables as [|t' tables]; [destruct He|].
      change (removelast (t :: t' :: tables))
        with (t :: removelast (t' :: tables)).
      destruct (Hin e He) as [->|H]; [now left | now right]. }
    cbn [predecessor_fold].
    destruct (string_le (number t) cur); cbn [app length].
    + split; [lia|]. intros e [<-|He]; [now left | right; now apply Hrest].
    + split; [lia|]. intros e He. right. now apply Hrest.
Qed.

(** X17. The validators of the variants report nothing exactly when "0" and the
    identifiers are strictly increasing for the string order.  They report at
    most one entry for each record, and each entry is the initial "0" or the
    identifier of a record that has a successor. *)
Theorem variant_validator_report :
  forall tables : list TableInfo,
    (Variant0.findMisorderedTables tables = [] <->
     StronglySorted lt_string (bytes "0" :: map number tables)) /\
    (Variant1.findMisorderedTables tables = [] <->
     StronglySorted lt_string (bytes "0" :: map number tables)) /\
    length (Variant0.findMisorderedTables tables) <= length tables /\
    (forall e, In e (Variant0.findMisorderedTables tables) ->
               e = bytes "0" \/ In e (map number (removelast tables))).
Proof.
  intros tables.
  unfold Variant0.findMisorderedTables, Variant1.findMisorderedTables.
  rewrite fold_check_table0, fold_check_table1. cbn [app].
  rewrite predecessor_fold_nil, <- validator_fold, validator_silent.
  repeat split; try tauto; apply predecessor_fold_shape.
Qed.

(* ------------------------------------------------------------------ *)
(** ** The string order on numbers of the same length *)

Lemma ascii_compare_nat (x y : ascii) :
  Ascii.compare x y = Nat.compare (nat_of_ascii x) (nat_of_ascii y).
Proof. unfold Ascii.compare, nat_of_ascii. apply N2Nat.inj_compare. Qed.

Lemma isdigit_value (ch : ascii) :
  isdigit ch = true -> 48 <= nat_of_ascii ch <= 57.
Proof.
  unfold isdigit. intros H. apply andb_true_iff in H as [H1 H2].
  apply Nat.leb_le in H1. apply Nat.leb_le in H2. lia.
Qed.

Lemma decimal_bound (s : str) : all_in isdigit s -> decimal s < 10 ^ length s.
Proof.
  intros H. induction H as [|x s Hx _ IH]; simpl; [lia|].
  apply isdigit_value in Hx. unfold digit_value. nia.
Qed.

Lemma compare_decimal (a : str) :
  forall b,
    all_in isdigit a -> all_in isdigit b -> length a = length b ->
    compare a b = Nat.compare (decimal a) (decimal b).
Proof.
  induction a as [|x a IH]; intros [|y b] Ha Hb Hlen; try discriminate Hlen.
  - reflexivity.
  - injection Hlen as Hlen. cbn [compare decimal].
    pose proof (decimal_bound a (Forall_inv_tail Ha)) as Ba.
    pose proof (decimal_bound b (Forall_inv_tail Hb)) as Bb.
    pose proof (isdigit_value x (Forall_inv Ha)) as Hx.
    pose proof (isdigit_value y (Forall_inv Hb)) as Hy.
    rewrite ascii_compare_nat, <- Hlen in *. unfold digit_value.
    destruct (Nat.compare_spec (nat_of_ascii x) (nat_of_ascii y)) as [E|L|G].
    + rewrite E, (IH b (Forall_inv_tail Ha) (Forall_inv_tail Hb) Hlen).
      destruct (Nat.compare_spec (decimal a) (decimal b)) as [E'|L'|G'];
        symmetry; [apply Nat.compare_eq_iff | apply Nat.compare_lt_iff
                  | apply Nat.compare_gt_iff]; lia.
    + symmetry. apply Nat.compare_lt_iff. nia.
    + symmetry. apply Nat.compare_gt_iff. nia.
Qed.

(** X7. For two identifiers that are numbers with the same count of digits, the
    string order is the order of the numbers: the second of two such records
    is flagged exactly when its number is not greater than the first one's. *)
Theorem validator_same_length_numbers :
  forall (l : list TableInfo) (a b : TableInfo),
    all_in isdigit (number a) -> all_in isdigit (number b) ->
    length (number a) = length (number b) ->
    findMisorderedTables (l ++ [a; b])
    = findMisorderedTables (l ++ [a])
        ++ (if decimal (number b) <=? decimal (number a)
            then [number b; number a] else []).
Proof.
  intros l a b Ha Hb Hlen. rewrite validator_snoc. f_equal.
  unfold string_le. rewrite (compare_decimal (number b) (number a)); auto.
  destruct (Nat.compare_spec (decimal (number b)) (decimal (number a)));
    destruct (Nat.leb_spec (decimal (number b)) (decimal (number a)));
    try reflexivity; lia.
Qed.

Lemma validator_same_length_numbers_witness :
  findMisorderedTables
    ([] ++ [mkTableInfo (bytes "09") []; mkTableInfo (bytes "10") []])
  = findMisorderedTables ([] ++ [mkTableInfo (bytes "09") []])
      ++ (if decimal (bytes "10") <=? decimal (bytes "09")
          then [bytes "10"; bytes "09"] else []).
Proof.
  apply (validator_same_length_numbers []
           (mkTableInfo (bytes "09") []) (mkTableInfo (bytes "10") [])).
  - repeat constructor.
  - repeat constructor.
  - reflexivity.
Defined.

(* ------------------------------------------------------------------ *)
(** ** The stack of the matcher *)

Lemma repeat_within_agrees (cls : ascii -> bool) (greedy : bool)
    (k_in : nat -> str -> attempt) (k : str -> option smatch) :
  (forall st s', agrees (k_in st s') (k s')) ->
  forall stack s min,
    agrees (repeatMatcher_within cls greedy k_in min s stack)
      (repeatMatcher cls greedy k min s).
Proof.
  intros Hk. induction stack as [|stack IH]; intros s min; [now left|].
  destruct min as [|min]; destruct s as [|x s]; simpl.
  - destruct greedy; [apply Hk|].
    destruct (Hk stack []) as [->| ->]; [now left|].
    destruct (k []); now right.
  - destruct greedy.
    + destruct (cls x); [|apply Hk].
      destruct (IH s 0) as [->| ->]; [now left|].
      destruct (repeatMatcher cls true k 0 s); [now right | apply Hk].
    + destruct (Hk stack (x :: s)) as [->| ->]; [now left|].
      destruct (k (x :: s)); [now right|].
      destruct (cls x); [apply IH | now right].
  - now right.
  - destruct (cls x); [apply IH | now right].
Qed.

Lemma matcher_within_agrees (r : regex) :
  forall s caps stack k_in k,
    (forall st s' c, agrees (k_in st s' c) (k s' c)) ->
    agrees (matcher_within r s caps stack k_in) (matcher r s caps k).
Proof.
  induction r as [w|cls min greedy|n r IH|r1 IH1 r2 IH2|r IH];
    intros s caps [|stack] k_in k Hk; try (now left); cbn [matcher_within matcher].
  - destruct (matchChars w s); [apply Hk | now right].
  - apply repeat_within_agrees. intros st s'. apply Hk.
  - apply IH. intros st s' c. apply Hk.
  - apply IH1. intros st s' c. now apply IH2.
  - destruct (IH s caps stack
                (fun st s' caps' =>
                   if length s' =? length s then NotFound else k_in st s' caps')
                (fun s' caps' =>
                   if length s' =? length s then None else k s' caps'))
      as [->| ->].
    + intros st s' c. destruct (length s' =? length s); [now right | apply Hk].
    + now left.
    + destruct (matcher r s caps _); [now right | apply Hk].
Qed.

Lemma regex_search_within_eq (stack : nat) (s : str) (r : regex) :
  regex_search_within stack s r
  = match matcher_within (Group 0 r) s no_match stack
            (fun _ _ caps => Found caps) with
    | Found m => Found m
    | Exhausted => Exhausted
    | NotFound =>
        match s with
        | [] => NotFound
        | _ :: s' => regex_search_within stack s' r
        end
    end.
Proof. destruct s; reflexivity. Qed.

Lemma regex_search_eq (s : str) (r : regex) :
  regex_search s r
  = match matcher (Group 0 r) s no_match (fun _ caps => Some caps) with
    | Some m => Some m
    | None =>
        match s with
        | [] => None
        | _ :: s' => regex_search s' r
        end
    end.
Proof. destruct s; reflexivity. Qed.

Lemma regex_search_within_agrees (stack : nat) (r : regex) (s : str) :
  agrees (regex_search_within stack s r) (regex_search s r).
Proof.
  assert (Hhere : forall t,
            agrees (matcher_within (Group 0 r) t no_match stack
                      (fun _ _ caps => Found caps))
                   (matcher (Group 0 r) t no_match (fun _ caps => Some caps))).
  { intros t. apply matcher_within_agrees. intros; now right. }
  induction s as [|x s IH]; rewrite regex_search_within_eq, regex_search_eq.
  - destruct (Hhere []) as [->| ->]; [now left|].
    destruct (matcher (Group 0 r) [] no_match _); now right.
  - destruct (Hhere (x :: s)) as [->| ->]; [now left|].
    destruct (matcher (Group 0 r) (x :: s) no_match _); [now right | exact IH].
Qed.

Lemma fold_scan_line_within (stack : nat) (lines : list str) :
  forall tables,
    fold_left (scan_line_within stack) lines (Some tables) = None \/
    fold_left (scan_line_within stack) lines (Some tables)
    = Some (fold_left scan_line lines tables).
Proof.
  assert (Hnone : forall l, fold_left (scan_line_within stack) l None = None).
  { induction l as [|x l IH]; [reflexivity | exact IH]. }
  induction lines as [|line lines IH]; intros tables; [now right|].
  cbn [fold_left]. unfold scan_line_within at 2 4, scan_line at 2.
  destruct (regex_search_within_agrees stack tablePattern line) as [->| ->].
  - left. apply Hnone.
  - destruct (regex_search line tablePattern); apply IH.
Qed.

(** With a stack, [extractTableInfo] returns what it returns without one, or
    nothing. *)
Lemma extractTableInfo_within_agrees (stack : nat) (text : str) :
  extractTableInfo_within stack text = None \/
  extractTableInfo_within stack text = Some (extractTableInfo text).
Proof. apply fold_scan_line_within. Qed.

(** A line without the marker word needs three activations at each start
    position: the whole pattern, its sequence, the marker word. *)
Lemma regex_search_within_no_marker (stack : nat) (line : str) :
  3 <= stack -> ~ contains_marker line ->
  regex_search_within stack line tablePattern = NotFound.
Proof.
  intros Hstack.
  destruct stack as [|[|[|stack]]]; try lia. clear Hstack.
  induction line as [|x line IH]; intros H.
  - reflexivity.
  - rewrite regex_search_within_eq.
    unfold tablePattern at 1. cbn [matcher_within].
    destruct (matchChars marker (x :: line)) as [s1|] eqn:E.
    + exfalso. apply H. apply matchChars_sound in E.
      exists [], s1. exact E.
    + apply IH. intros (p & q & ->). apply H.
      now exists (x :: p), q.
Qed.

Lemma extractTableInfo_within_no_marker (stack : nat) (text : str) :
  3 <= stack ->
  Forall (fun line => ~ contains_marker line) (getlines [] text) ->
  extractTableInfo_within stack text = Some [].
Proof.
  intros Hstack H. unfold extractTableInfo_within.
  assert (Hfold : forall tables,
            fold_left (scan_line_within stack) (getlines [] text) (Some tables)
            = Some tables); [|apply Hfold].
  induction H as [|line lines Hline _ IH]; intros tables; [reflexivity|].
  cbn [fold_left]. unfold scan_line_within at 2.
  rewrite (regex_search_within_no_marker stack line Hstack Hline).
  apply IH.
Qed.

(** A greedy loop on a run that is longer than the stack exhausts it,
    whatever comes after. *)
Lemma greedy_run_exhausts (cls : ascii -> bool) (k : nat -> str -> attempt)
    (x : ascii) (v : str) :
  cls x = true ->
  forall stack n min,
    stack <= n ->
    repeatMatcher_within cls true k min (repeat x n ++ v) stack = Exhausted.
Proof.
  intros Hx. induction stack as [|stack IH]; intros n min Hn; [reflexivity|].
  destruct n as [|n]; [lia|].
  destruct min as [|min]; simpl; rewrite Hx.
  - now rewrite (IH n 0) by lia.
  - apply IH. lia.
Qed.

(** The search on the marker word followed by a run of spaces that is longer
    than the stack. *)
Lemma long_run_exhausts (stack n : nat) (rest : str) :
  stack <= n ->
  regex_search_within stack (marker ++ repeat " "%char n ++ rest) tablePattern
  = Exhausted.
Proof.
  intros Hn. rewrite regex_search_within_eq.
  destruct stack as [|[|[|[|[|stack]]]]]; try reflexivity;
    unfold tablePattern at 1; cbn [matcher_within];
    rewrite matchChars_app; try reflexivity.
  cbn [matcher_within].
  now rewrite greedy_run_exhausts by (reflexivity || lia).
Qed.

Lemma repeat_no_newline (n : nat) : ~ In newline (repeat " "%char n).
Proof. intros H. apply repeat_spec in H. discriminate H. Qed.

Lemma long_run_line (n : nat) :
  getlines [] (marker ++ repeat " "%char n ++ bytes "1")
  = [marker ++ repeat " "%char n ++ bytes "1"].
Proof.
  apply (getlines_one_line _ []).
  - intros H. apply in_app_or in H as [H|H].
    { vm_compute in H. intuition discriminate. }
    apply in_app_or in H as [H|H]; [now apply repeat_no_newline in H|].
    vm_compute in H. intuition discriminate.
  - discriminate.
Qed.

Lemma extractTableInfo_within_long_run (stack : nat) :
  extractTableInfo_within stack (marker ++ repeat " "%char stack ++ bytes "1")
  = None.
Proof.
  unfold extractTableInfo_within. rewrite long_run_line.
  cbn [fold_left]. unfold scan_line_within.
  now rewrite long_run_exhausts.
Qed.

(** Enough stack for a loop: one activation for each character and one
    more, on top of what the continuation needs. *)
Lemma repeat_within_enough (cls : ascii -> bool) (greedy : bool)
    (k : nat -> str -> attempt) (base : nat) (s : str) :
  forall stack min,
    length s + 1 + base <= stack ->
    (forall st s', base <= st -> length s' <= length s ->
                   k st s' <> Exhausted) ->
    repeatMatcher_within cls greedy k min s stack <> Exhausted.
Proof.
  induction s as [|x s IH]; intros [|stack] min Hstack Hk;
    simpl in Hstack; try lia.
  - destruct min, greedy; simpl; try discriminate.
    + apply Hk; simpl; lia.
    + destruct (k stack []) eqn:E; try discriminate.
      exfalso. revert E. apply Hk; simpl; lia.
  - assert (Hrec : forall m, repeatMatcher_within cls greedy k m s stack
                             <> Exhausted).
    { intros m. apply IH; [lia|].
      intros st s' Hst Hs'. apply Hk; simpl; lia. }
    assert (Hhere : k stack (x :: s) <> Exhausted) by (apply Hk; simpl; lia).
    destruct min as [|min]; simpl.
    + destruct greedy.
      * destruct (cls x); [|exact Hhere].
        specialize (Hrec 0).
        destruct (repeatMatcher_within cls true k 0 s stack);
          [discriminate | exact Hhere | contradiction].
      * destruct (k stack (x :: s)); [discriminate | | contradiction].
        destruct (cls x); [apply Hrec | discriminate].
    + destruct (cls x); [apply Hrec | discriminate].
Qed.

Lemma matchChars_length (w s s' : str) :
  matchChars w s = Some s' -> length s' <= length s.
Proof.
  intros H. apply matchChars_sound in H. subst s. rewrite length_app. lia.
Qed.

(** Enough stack for a pattern on an input of at most [n] characters. *)
Lemma matcher_within_enough (n : nat) (r : regex) :
  forall s caps stack base k,
    length s <= n ->
    depth r n + base <= stack ->
    (forall st s' c, base <= st -> length s' <= n -> k st s' c <> Exhausted) ->
    matcher_within r s caps stack k <> Exhausted.
Proof.
  induction r as [w|cls min greedy|g r IH|r1 IH1 r2 IH2|r IH];
    intros s caps [|stack] base k Hs Hstack Hk; simpl in Hstack; try lia;
    cbn [matcher_within].
  - destruct (matchChars w s) as [s'|] eqn:E; [|discriminate].
    apply Hk; [lia|]. apply matchChars_length in E. lia.
  - apply (repeat_within_enough cls greedy _ base); [lia|].
    intros st s' Hst Hs'. apply Hk; lia.
  - apply (IH s caps stack base); [assumption | lia|].
    intros st s' c Hst Hs'. now apply Hk.
  - apply (IH1 s caps stack (depth r2 n + base)); [assumption | lia|].
    intros st s' c Hst Hs'. now apply (IH2 s' c st base).
  - assert (Hin : matcher_within r s caps stack
                    (fun st s' caps' =>
                       if length s' =? length s then NotFound
                       else k st s' caps') <> Exhausted).
    { apply (IH s caps stack base); [assumption | lia|].
      intros st s' c Hst Hs'.
      destruct (length s' =? length s); [discriminate | now apply Hk]. }
    destruct (matcher_within r s caps stack _);
      [discriminate | | contradiction].
    apply Hk; lia.
Qed.

Lemma regex_search_within_enough (n stack : nat) (r : regex) (s : str) :
  length s <= n -> depth (Group 0 r) n <= stack ->
  regex_search_within stack s r <> Exhausted.
Proof.
  intros Hs Hstack.
  assert (Hhere : forall t, length t <= n ->
            matcher_within (Group 0 r) t no_match stack
              (fun _ _ caps => Found caps) <> Exhausted).
  { intros t Ht. apply (matcher_within_enough n (Group 0 r) t no_match stack 0);
      [assumption | lia | discriminate]. }
  induction s as [|x s IH]; rewrite regex_search_within_eq.
  - specialize (Hhere [] Hs).
    destruct (matcher_within (Group 0 r) [] no_match stack _);
      [discriminate | discriminate | contradiction].
  - specialize (Hhere (x :: s) Hs).
    destruct (matcher_within (Group 0 r) (x :: s) no_match stack _);
      [discriminate | | contradiction].
    apply IH. simpl in Hs. lia.
Qed.

(** With that much stack for the whole text, [extractTableInfo] returns its
    result. *)
Lemma extractTableInfo_within_enough (stack : nat) (text : str) :
  depth (Group 0 tablePattern) (length text) <= stack ->
  extractTableInfo_within stack text = Some (extractTableInfo text).
Proof.
  intros Hstack. unfold extractTableInfo_within, extractTableInfo.
  assert (Hlines : forall line, In line (getlines [] text) ->
                                length line <= length text).
  { intros line Hin. apply getlines_part in Hin as (p & q & E).
    simpl in E. rewrite E, !length_app. lia. }
  generalize (@nil TableInfo).
  induction (getlines [] text) as [|line lines IH]; intros tables;
    [reflexivity|].
  cbn [fold_left]. unfold scan_line_within at 2, scan_line at 2.
  pose proof (regex_search_within_enough (length text) stack tablePattern line
                (Hlines line (or_introl eq_refl)) Hstack) as Hne.
  destruct (regex_search_within_agrees stack tablePattern line) as [E|E];
    [contradiction|].
  rewrite E.
  destruct (regex_search line tablePattern);
    apply IH; intros l Hl; apply Hlines; now right.
Qed.

(** C8, as stated, fails: whatever room the stack has, there is a text on
    which [extractTableInfo] has no result, the marker word followed by a run
    of spaces that is longer than the stack; so with room for a thousand
    activations and a thousand spaces. *)
Lemma extraction_exhausts_stack :
  ~ (exists stack, forall text, extractTableInfo_within stack text <> None) /\
  extractTableInfo_within 1000
    (marker ++ repeat " "%char 1000 ++ bytes "1") = None.
Proof.
  split.
  - intros (stack & H).
    apply (H (marker ++ repeat " "%char stack ++ bytes "1")).
    apply extractTableInfo_within_long_run.
  - apply extractTableInfo_within_long_run.
Qed.

(** C8, amended. A text none of whose lines contains the marker word gives no
    record, and the validator gives no anomaly on the empty sequence of
    records.  On such a text the search needs three activations of the matcher
    at each start position, however long the lines are: with a stack that has
    room for three, [extractTableInfo] returns the empty sequence.  On every
    text, [extractTableInfo] with a stack returns what it returns without
    one, or nothing; it returns it when the stack has room for a number of
    activations that grows with the length of the text. *)
Theorem no_marker_no_output :
  forall text : str,
    Forall (fun line => ~ contains_marker line) (getlines [] text) ->
    extractTableInfo text = [] /\
    findMisorderedTables (extractTableInfo text) = [] /\
    findMisorderedTables [] = [] /\
    (forall stack, 3 <= stack -> extractTableInfo_within stack text = Some []) /\
    (forall stack t,
        extractTableInfo_within stack t = None \/
        extractTableInfo_within stack t = Some (extractTableInfo t)) /\
    (forall stack t,
        depth (Group 0 tablePattern) (length t) <= stack ->
        extractTableInfo_within stack t = Some (extractTableInfo t)).
Proof.
  intros text H.
  assert (E : extractTableInfo text = []).
  { rewrite extractTableInfo_lines.
    induction H as [|line lines Hline _ IH]; simpl; [reflexivity|].
    rewrite IH, app_nil_r.
    destruct (line_record line) eqn:El; [|reflexivity].
    exfalso. apply Hline, is_caption_contains_marker, line_record_caption.
    now rewrite El. }
  rewrite E. repeat split.
  - intros stack Hstack. now apply extractTableInfo_within_no_marker.
  - intros stack t. apply extractTableInfo_within_agrees.
  - intros stack t. apply extractTableInfo_within_enough.
Qed.

Lemma no_marker_no_output_witness :
  Forall (fun line => ~ contains_marker line)
    (getlines [] (bytes "Table 1 - Parameters
Tab. 2")) /\
  extractTableInfo (bytes "Table 1 - Parameters
Tab. 2") = [] /\
  findMisorderedTables (extractTableInfo (bytes "Table 1 - Parameters
Tab. 2")) = [] /\
  findMisorderedTables [] = [] /\
  (forall stack, 3 <= stack ->
     extractTableInfo_within stack (bytes "Table 1 - Parameters
Tab. 2") = Some []).
Proof.
  assert (H : Forall (fun line => ~ contains_marker line)
                (getlines [] (bytes "Table 1 - Parameters
Tab. 2"))).
  { repeat constructor; apply occurs_marker; vm_compute; reflexivity. }
  split; [exact H|].
  destruct (no_marker_no_output _ H) as (H1 & H2 & H3 & H4 & _).
  repeat split; assumption.
Defined.
